(** * HUMMBL decomposition operator: a shallow embedding of
      [src/transformations/decomposition.py] and the properties of its
      pipeline.

    Modelling conventions.
    - Python [str] is [String.string]; the character tests ([\w], [\d], [\s],
      [str.lower], [str.strip]) are the ASCII ones, so the model covers ASCII
      problem texts.
    - Python [float] scores are exact rationals ([Q]): the source only adds,
      multiplies and divides them, takes [min] and compares them. Their
      two-decimal rendering ([format_2f]) and the wall-clock [duration] of a
      run are parameters.
    - A Python [set] of strings is the duplicate-free list of its elements in
      first-insertion order; [list(set)] goes through [list_of_set], the
      (hash-dependent) iteration order, which is left arbitrary.
    - Exceptions are values of [outcome]; the two recursive helpers ([dfs] and
      [get_depth]) take a recursion budget and answer [OutOfFuel] when it is
      exhausted. *)

From Stdlib Require Import String Ascii List ZArith QArith Lia Lqa Permutation.
From Stdlib Require Import DecimalString DecimalNat.
From stdpp Require Import gmap strings list relations.

Import ListNotations.
Local Open Scope string_scope.
Local Open Scope list_scope.

(** ** Strings as Python uses them *)

Module PyStr.

Definition code (c : ascii) : nat := nat_of_ascii c.

Definition between (lo hi : nat) (c : ascii) : bool :=
  (lo <=? code c)%nat && (code c <=? hi)%nat.

Definition is_upper (c : ascii) : bool := between 65 90 c.
Definition is_lower (c : ascii) : bool := between 97 122 c.
Definition is_alpha (c : ascii) : bool := is_upper c || is_lower c.
Definition is_digit (c : ascii) : bool := between 48 57 c.

(** [\w]: letters, digits and the underscore. *)
Definition is_word (c : ascii) : bool :=
  is_alpha c || is_digit c || (code c =? 95)%nat.

(** [str.isspace] on ASCII: tab, LF, VT, FF, CR, the four separators
    0x1c-0x1f and the space. *)
Definition is_space (c : ascii) : bool :=
  between 9 13 c || between 28 31 c || (code c =? 32)%nat.

Definition lower_char (c : ascii) : ascii :=
  if is_upper c then ascii_of_nat (code c + 32) else c.

(** [s.lower()] *)
Fixpoint lower (s : string) : string :=
  match s with
  | EmptyString => EmptyString
  | String c s' => String (lower_char c) (lower s')
  end.

(** [needle in hay] *)
Fixpoint contains (needle hay : string) : bool :=
  String.prefix needle hay ||
  match hay with
  | EmptyString => false
  | String _ hay' => contains needle hay'
  end.

Fixpoint lstrip (s : string) : string :=
  match s with
  | String c s' => if is_space c then lstrip s' else s
  | EmptyString => EmptyString
  end.

(** Drops the trailing white space; the result is what is kept. *)
Fixpoint rstrip (s : string) : string :=
  match s with
  | EmptyString => EmptyString
  | String c s' =>
      match rstrip s' with
      | EmptyString => if is_space c then EmptyString else String c EmptyString
      | kept => String c kept
      end
  end.

(** [s.strip()] *)
Definition strip (s : string) : string := rstrip (lstrip s).

(** [x in l] for a list of strings. *)
Definition mem (x : string) (l : list string) : bool :=
  existsb (String.eqb x) l.

(** [str(n)] for a non-negative [int]. *)
Definition of_nat (n : nat) : string := NilEmpty.string_of_uint (Nat.to_uint n).

(** [description.split(' ', 1)[1]], defined when the string has a space. *)
Fixpoint after_first_space (s : string) : option string :=
  match s with
  | EmptyString => None
  | String c s' => if (code c =? 32)%nat then Some s' else after_first_space s'
  end.

(** [re.split(cls+, s)]: the pieces between the maximal runs of characters of
    [cls]; [cur] is the piece being read and [in_run] tells that the previous
    character was a separator. *)
Fixpoint split_runs (cls : ascii -> bool) (s : string) (cur : string) (in_run : bool)
  : list string :=
  match s with
  | EmptyString => [cur]
  | String c s' =>
      if cls c
      then (if in_run then split_runs cls s' EmptyString true
            else cur :: split_runs cls s' EmptyString true)
      else split_runs cls s' (cur +:+ String c EmptyString) false
  end.

End PyStr.

(** ** The fragment of [re] the patterns of the source use *)

Module Re.

Import PyStr.

Inductive regex : Type :=
| Lit (s : string)            (* literal text *)
| Cls (p : ascii -> bool)     (* one character of a class *)
| Plus (p : ascii -> bool)    (* class+, greedy *)
| Opt (r : regex)             (* r?, greedy *)
| Seq (r1 r2 : regex)
| Alt (r1 r2 : regex)
| WordB.                      (* \b *)

Infix "+>" := Seq (at level 62, right associativity).

(** [(w1|w2|...)] *)
Fixpoint any_of (ws : list string) : regex :=
  match ws with
  | [] => Cls (fun _ => false)
  | [w] => Lit w
  | w :: ws' => Alt (Lit w) (any_of ws')
  end.

Definition same_char (ignorecase : bool) (a b : ascii) : bool :=
  if ignorecase then Ascii.eqb (lower_char a) (lower_char b) else Ascii.eqb a b.

(** Matching threads whether the character before the cursor is a word
    character ([\b] is the only construct that looks behind). *)
Fixpoint lit_match (ignorecase : bool) (l s : string) (prev_word : bool)
  : option (bool * string) :=
  match l with
  | EmptyString => Some (prev_word, s)
  | String a l' =>
      match s with
      | EmptyString => None
      | String b s' =>
          if same_char ignorecase a b then lit_match ignorecase l' s' (is_word b) else None
      end
  end.

Fixpoint plus_match (p : ascii -> bool) (s : string)
    (k : bool -> string -> option string) : option string :=
  match s with
  | EmptyString => None
  | String c s' =>
      if p c then
        match plus_match p s' k with
        | Some rest => Some rest
        | None => k (is_word c) s'
        end
      else None
  end.

Definition next_is_word (s : string) : bool :=
  match s with
  | EmptyString => false
  | String c _ => is_word c
  end.

(** Backtracking match at the cursor, in continuation-passing style; the
    answer is the input left after the whole match. *)
Fixpoint rmatch (ignorecase : bool) (r : regex) (prev_word : bool) (s : string)
    (k : bool -> string -> option string) : option string :=
  match r with
  | Lit l =>
      match lit_match ignorecase l s prev_word with
      | Some (pw, s') => k pw s'
      | None => None
      end
  | Cls p =>
      match s with
      | String c s' => if p c then k (is_word c) s' else None
      | EmptyString => None
      end
  | Plus p => plus_match p s k
  | Opt r1 =>
      match rmatch ignorecase r1 prev_word s k with
      | Some rest => Some rest
      | None => k prev_word s
      end
  | Seq r1 r2 =>
      rmatch ignorecase r1 prev_word s (fun pw s' => rmatch ignorecase r2 pw s' k)
  | Alt r1 r2 =>
      match rmatch ignorecase r1 prev_word s k with
      | Some rest => Some rest
      | None => rmatch ignorecase r2 prev_word s k
      end
  | WordB => if xorb prev_word (next_is_word s) then k prev_word s else None
  end.

Definition match_at (ignorecase : bool) (r : regex) (prev_word : bool) (s : string)
  : option string :=
  rmatch ignorecase r prev_word s (fun _ rest => Some rest).

(** [m.group() for m in re.finditer(r, s)]: leftmost matches, each search
    resuming where the previous match ended ([skip] counts the characters of
    the current match still to pass). None of the patterns below matches the
    empty string. *)
Fixpoint finditer_from (ignorecase : bool) (r : regex) (prev_word : bool)
    (s : string) (skip : nat) : list string :=
  match s with
  | EmptyString => []
  | String c s' =>
      match skip with
      | S n => finditer_from ignorecase r (is_word c) s' n
      | O =>
          match match_at ignorecase r prev_word s with
          | Some rest =>
              let n := (String.length s - String.length rest)%nat in
              match n with
              | O => finditer_from ignorecase r (is_word c) s' 0
              | S n' => substring 0 n s :: finditer_from ignorecase r (is_word c) s' n'
              end
          | None => finditer_from ignorecase r (is_word c) s' 0
          end
      end
  end.

Definition finditer (ignorecase : bool) (r : regex) (s : string) : list string :=
  finditer_from ignorecase r false s 0.

End Re.

(** ** Exceptions and the recursion budget *)

Inductive exn : Type := ValueError | StopIteration.

Inductive outcome (A : Type) : Type :=
| Ok (a : A)
| Raise (e : exn)
| OutOfFuel.

Arguments Ok {A} a.
Arguments Raise {A} e.
Arguments OutOfFuel {A}.

#[global] Instance outcome_ret : MRet outcome := fun A a => Ok a.
#[global] Instance outcome_bind : MBind outcome := fun A B f m =>
  match m with
  | Ok a => f a
  | Raise e => Raise e
  | OutOfFuel => OutOfFuel
  end.

(** [[f(x) for x in l]] for an [f] that updates a state and may raise. *)
Fixpoint traverse {S A B : Type} (f : S -> A -> outcome (B * S)) (l : list A) (s : S)
  : outcome (list B * S) :=
  match l with
  | [] => Ok ([], s)
  | x :: l' =>
      '(y, s1) ← f s x;
      '(ys, s2) ← traverse f l' s1;
      Ok (y :: ys, s2)
  end.

(** ** Python numbers *)

Definition Qltb (x y : Q) : bool := negb (Qle_bool y x).

(** [min(a, b)]: [b] only when it is strictly smaller. *)
Definition py_min (a b : Q) : Q := if Qltb b a then b else a.

(** [a / b] on two non-negative [int]s. *)
Definition py_div (a b : nat) : Q := (inject_Z (Z.of_nat a) / inject_Z (Z.of_nat b))%Q.

Definition Q_of_nat (n : nat) : Q := inject_Z (Z.of_nat n).

(** [sum(xs)] *)
Definition py_sum (xs : list Q) : Q := fold_left Qplus xs 0%Q.

(** [max(l, key=key)]: the first element whose key is maximal. *)
Definition py_max_by {A : Type} (key : A -> Q) (l : list A) : outcome A :=
  match l with
  | [] => Raise ValueError
  | x :: l' => Ok (fold_left (fun best c => if Qltb (key best) (key c) then c else best) l' x)
  end.

(** ** Data model *)

Inductive CompType : Type := action | entity | constraint | relationship.

#[global] Instance CompType_eq_dec : EqDecision CompType.
Proof. solve_decision. Defined.

Definition is_type (t u : CompType) : bool := bool_decide (t = u).

Record Scored : Type := { score : Q; reason : string }.

Record Meta : Type := { extracted_from : string; confidence : Q }.

Record Component : Type := {
  id : string;
  description : string;
  type : CompType;
  dependencies : list string;
  coupling : Scored;
  criticality : Scored;
  metadata : Meta
}.

Definition default_scored : Scored := {| score := 0.5; reason := "Initial estimate" |}.

Record Noise : Type := { noise_type : string; noise_description : string }.

Record Decision : Type := { point : string; rationale : string }.

Record Reasoning : Type := { steps : list string; decisions : list Decision }.

Record ResultMeta : Type := {
  total_components : nat;
  max_depth : nat;
  estimated_complexity : string;
  overall_confidence : Q;
  noise_detected : option Noise
}.

Record DecompositionResult : Type := {
  components : list Component;
  critical_path : list string;
  parallelizable : list (list string);
  reasoning : Reasoning;
  result_metadata : ResultMeta;
  warnings : list string
}.

Definition set_dependencies (c : Component) (deps : list string) : Component :=
  {| id := id c; description := description c; type := type c;
     dependencies := deps; coupling := coupling c;
     criticality := criticality c; metadata := metadata c |}.

Definition set_coupling (c : Component) (s : Scored) : Component :=
  {| id := id c; description := description c; type := type c;
     dependencies := dependencies c; coupling := s;
     criticality := criticality c; metadata := metadata c |}.

Definition set_criticality (c : Component) (s : Scored) : Component :=
  {| id := id c; description := description c; type := type c;
     dependencies := dependencies c; coupling := coupling c;
     criticality := s; metadata := metadata c |}.

(** ** Sample inputs *)

(** An iteration order for sets: first-insertion order. *)
Definition insertion_order (s : list string) : list string := s.

(** Two decimals of a non-negative exact rational, half rounded to even. *)
Definition format_2f_exact (q : Q) : string :=
  let d := Z.pos (Qden q) in
  let scaled := (Qnum q * 100)%Z in
  let fl := (scaled / d)%Z in
  let rem := (scaled mod d)%Z in
  let rounded :=
    if (2 * rem <? d)%Z then fl
    else if (2 * rem =? d)%Z then (if Z.even fl then fl else fl + 1)%Z
    else (fl + 1)%Z in
  let frac := Z.to_nat (rounded mod 100) in
  PyStr.of_nat (Z.to_nat (rounded / 100)) +:+ "."
    +:+ (if (frac <? 10)%nat then "0" else "") +:+ PyStr.of_nat frac.

(** The constraint scenario of the test suite. *)
Definition constraint_text : string :=
  "Build system in 2 weeks with zero budget and solo engineer".

(** Two actions, each co-mentioned with an entity of its own. *)
Definition parallel_text : string :=
  "build server with cache. configure server with queue.".

(** Three actions in canonical order, the first co-mentioned with an entity. *)
Definition pipeline_text : string :=
  "build server with cache. test server and build server. deploy server and build server.".

(** Sixty characters, vague terms, nothing the extractor recognises. *)
Definition vague_text : string :=
  "maybe this could possibly work out approximately as we hoped".

Definition empty_result : DecompositionResult :=
  {| components := []; critical_path := []; parallelizable := [];
     reasoning := {| steps := []; decisions := [] |};
     result_metadata :=
       {| total_components := 0; max_depth := 1; estimated_complexity := "low";
          overall_confidence := 0; noise_detected := None |};
     warnings := [] |}.

(** ** The operator *)

Section DecompositionOperator.

Import PyStr Re.

(** [list(s)] for a set [s] of strings, given in first-insertion order. *)
Variable list_of_set : list string -> list string.
(** [f"{x:.2f}"] *)
Variable format_2f : Q -> string.
(** The wall-clock duration of the run, in milliseconds. *)
Variable duration : Q.

(** [s.update(xs)] *)
Definition set_update (s xs : list string) : list string :=
  fold_left (fun acc x => if mem x acc then acc else acc ++ [x]) xs s.

Definition action_patterns : list regex :=
  [ WordB +> any_of ["build"; "create"; "implement"; "develop"; "design"; "setup";
                     "configure"; "install"; "deploy"; "integrate"; "test";
                     "validate"; "optimize"; "refactor"; "migrate"] +> WordB;
    WordB +> any_of ["add"; "remove"; "update"; "modify"; "fix"; "enhance";
                     "improve"] +> WordB;
    WordB +> any_of ["analyze"; "evaluate"; "assess"; "review"; "audit";
                     "investigate"] +> WordB ].

Definition _extract_actions (text : string) : list string :=
  list_of_set
    (fold_left
       (fun actions pattern => set_update actions (map lower (finditer true pattern text)))
       action_patterns []).

Definition tech_pattern : regex :=
  WordB +> any_of ["API"; "MCP"; "server"; "database"; "worker"; "service";
                   "function"; "component"; "module"; "system"; "cache";
                   "storage"; "queue"; "D1"; "R2"; "KV"; "Cloudflare"] +> WordB.

Definition cap_pattern : regex :=
  WordB +> Cls is_upper +> Plus is_alpha +> WordB.

Definition skip_words : list string :=
  ["The"; "A"; "An"; "In"; "On"; "For"; "With"; "To"; "From"; "By"].

Definition _extract_entities (text : string) : list string :=
  let entities := set_update [] (map lower (finditer true tech_pattern text)) in
  let cap_matches := finditer false cap_pattern text in
  list_of_set
    (set_update entities
       (map lower (List.filter (fun m => negb (mem m skip_words)) cap_matches))).

Definition time_pattern : regex :=
  WordB +> Plus is_digit +> Plus is_space
        +> any_of ["day"; "week"; "month"; "hour"; "minute"] +> Opt (Lit "s") +> WordB.

Definition budget_pattern : regex :=
  Alt (Lit "$" +> Plus is_digit)
      (Alt (WordB +> Lit "zero budget" +> WordB) (Lit "no budget")).

Definition team_pattern : regex :=
  WordB +> Alt (Lit "solo")
          (Alt (Lit "alone")
          (Alt (Plus is_digit +> Plus is_space +> Lit "engineer" +> Opt (Lit "s"))
               (Plus is_digit +> Plus is_space +> Lit "person"))) +> WordB.

Definition constraint_patterns : list regex :=
  [time_pattern; budget_pattern; team_pattern].

Definition _extract_constraints (text : string) (explicit : option (list string))
  : list string :=
  let constraints :=
    match explicit with
    | Some (e :: es) => set_update [] (e :: es)
    | _ => []
    end in
  list_of_set
    (fold_left
       (fun constraints pattern =>
          set_update constraints (map lower (finditer true pattern text)))
       constraint_patterns constraints).

Definition common_pairs : list (string * list string) :=
  [ ("build", ["server"; "api"; "system"; "component"]);
    ("deploy", ["worker"; "service"; "function"]);
    ("integrate", ["database"; "d1"; "api"; "service"]);
    ("configure", ["server"; "worker"; "cache"]);
    ("test", ["function"; "api"; "component"]) ].

(** [d.get(key, [])] *)
Definition dict_get (d : list (string * list string)) (key : string) : list string :=
  match find (fun kv => String.eqb (fst kv) key) d with
  | Some kv => snd kv
  | None => []
  end.

(** Truth value of an [Optional[str]]. *)
Definition truthy (o : option string) : bool :=
  match o with
  | Some s => negb (String.eqb s "")
  | None => false
  end.

Fixpoint first_preferred (preferred entities : list string) : option string :=
  match preferred with
  | [] => None
  | pref :: preferred' =>
      let m := find (fun e => contains pref e) entities in
      if truthy m then m else first_preferred preferred' entities
  end.

Definition _find_related_entity (action : string) (entities : list string)
  : option string :=
  let preferred := dict_get common_pairs action in
  match first_preferred preferred entities with
  | Some m => Some m
  | None => head entities
  end.

Definition comp_id (id_counter : nat) : string := "comp_" +:+ of_nat id_counter.

Definition action_component (entities : list string) (cid : string) (a : string)
  : Component :=
  let related_entity := _find_related_entity a entities in
  let description :=
    match related_entity with
    | Some e => if truthy related_entity then a +:+ " " +:+ e else a
    | None => a
    end in
  {| id := cid; description := description; type := action;
     dependencies := []; coupling := default_scored; criticality := default_scored;
     metadata := {| extracted_from := "action: " +:+ a; confidence := 0.7 |} |}.

Definition entity_component (cid : string) (e : string) : Component :=
  {| id := cid; description := e; type := entity;
     dependencies := [];
     coupling := {| score := 0.3; reason := "Entity component" |};
     criticality := {| score := 0.3; reason := "Supporting entity" |};
     metadata := {| extracted_from := "entity: " +:+ e; confidence := 0.6 |} |}.

Definition constraint_component (cid : string) (c : string) : Component :=
  {| id := cid; description := "respect constraint: " ++ c; type := constraint;
     dependencies := [];
     coupling := {| score := 0.8; reason := "Constraint impacts all components" |};
     criticality := {| score := 0.9; reason := "Constraint violation = failure" |};
     metadata := {| extracted_from := "constraint: " +:+ c; confidence := 0.8 |} |}.

(** One [for] loop of [_build_components]: a component per element, the id
    counter advancing by one each time. *)
Fixpoint build_from {A : Type} (mk : string -> A -> Component) (id_counter : nat)
    (xs : list A) : list Component :=
  match xs with
  | [] => []
  | x :: xs' => mk (comp_id id_counter) x :: build_from mk (S id_counter) xs'
  end.

Definition paired_entities (components : list Component) : list string :=
  omap (fun c => after_first_space (description c)) components.

Definition build_list (actions entities constraints : list string) : list Component :=
  let action_comps := build_from (action_component entities) 0 actions in
  let unpaired :=
    List.filter (fun e => negb (mem e (paired_entities action_comps))) entities in
  let entity_comps := build_from entity_component (length action_comps) unpaired in
  let constraint_comps :=
    build_from constraint_component (length action_comps + length entity_comps)
      constraints in
  action_comps ++ entity_comps ++ constraint_comps.

(** Returns the components and the decision it records. *)
Definition _build_components (actions entities constraints : list string)
  : list Component * Decision :=
  let components := build_list actions entities constraints in
  (components,
   {| point := "Component generation";
      rationale := "Generated " +:+ of_nat (length components) +:+ " components from "
        +:+ of_nat (length actions) +:+ " actions, "
        +:+ of_nat (length entities) +:+ " entities, "
        +:+ of_nat (length constraints) +:+ " constraints" |}).

(** *** Pass 5: dependencies *)

Definition is_sentence_end (c : ascii) : bool :=
  (code c =? 46)%nat || (code c =? 33)%nat || (code c =? 63)%nat.

(** [[s.strip() for s in re.split(r'[.!?]+', text) if s.strip()]] *)
Definition sentences_of (problem_text : string) : list string :=
  List.filter (fun s => negb (String.eqb s ""))
    (map strip (split_runs is_sentence_end problem_text "" false)).

Definition sequence : list string :=
  ["setup"; "build"; "configure"; "test"; "deploy"; "integrate"].

(** [next((i for i, s in enumerate(l) if p(s)), -1)], counting from [i]. *)
Fixpoint first_index (p : string -> bool) (l : list string) (i : Z) : Z :=
  match l with
  | [] => (-1)%Z
  | s :: l' => if p s then i else first_index p l' (i + 1)%Z
  end.

Definition sequence_index (a : string) : Z :=
  first_index (fun s => contains s a) sequence 0.

Definition _is_sequential (action1 action2 : string) : bool :=
  let idx1 := sequence_index action1 in
  let idx2 := sequence_index action2 in
  negb (idx1 =? -1)%Z && negb (idx2 =? -1)%Z && (idx2 <? idx1)%Z.

Definition mentions (c : Component) (s : string) : bool :=
  contains (lower (description c)) (lower s).

(** The ids the co-mention loop appends to [comp.dependencies]. *)
Definition co_mention_edges (components : list Component) (sentences : list string)
    (comp : Component) : list string :=
  let relevant := List.filter (mentions comp) sentences in
  flat_map
    (fun other =>
       if String.eqb (id comp) (id other) then []
       else
         let co_mentioned := existsb (mentions other) relevant in
         if co_mentioned then
           if is_type (type comp) action && is_type (type other) entity
           then [id other]
           else if is_type (type comp) action && is_type (type other) action
                   && _is_sequential (description comp) (description other)
           then [id other]
           else []
         else [])
    components.

(** The ids the constraint loop appends. *)
Definition constraint_edges (components : list Component) (comp : Component)
  : list string :=
  if negb (is_type (type comp) constraint) then
    flat_map (fun other => if is_type (type other) constraint then [id other] else [])
      components
  else [].

Definition _detect_dependencies (components : list Component) (problem_text : string)
  : list Component :=
  let sentences := sentences_of problem_text in
  map (fun comp =>
         set_dependencies comp
           (dependencies comp ++ co_mention_edges components sentences comp
              ++ constraint_edges components comp))
    components.

(** *** Passes 6 and 7: scores *)

(** [sum(1 for c in components if comp.id in c.dependencies)] *)
Definition dependent_count (components : list Component) (comp : Component) : nat :=
  length (List.filter (fun c => mem (id comp) (dependencies c)) components).

Definition coupling_score (components : list Component) (comp : Component) : Q :=
  let dep_count := length (dependencies comp) in
  let total_connections := (dep_count + dependent_count components comp)%nat in
  let max_possible := ((length components - 1) * 2)%nat in
  py_min (py_div total_connections (Nat.max max_possible 1)) 1.0.

Definition coupling_of (components : list Component) (comp : Component) : Scored :=
  {| score := coupling_score components comp;
     reason := of_nat (length (dependencies comp)) +:+ " dependencies, "
               +:+ of_nat (dependent_count components comp) +:+ " dependents" |}.

Definition coupling_warning (components : list Component) (comp : Component)
  : list string :=
  let score := coupling_score components comp in
  if Qltb 0.7 score then
    ["Component '" +:+ description comp +:+ "' is highly coupled ("
       +:+ format_2f score +:+ ")"]
  else [].

(** Returns the rescored components and the warnings it appends. *)
Definition _calculate_coupling (components : list Component)
  : list Component * list string :=
  (map (fun comp => set_coupling comp (coupling_of components comp)) components,
   flat_map (coupling_warning components) components).

Definition criticality_of (components : list Component) (comp : Component) : Scored :=
  let n := dependent_count components comp in
  if is_type (type comp) constraint then
    {| score := 0.95; reason := "Constraint affects all work" |}
  else
    {| score := py_min (0.3 + Q_of_nat n * 0.15)%Q 1.0;
       reason := of_nat n +:+ " components depend on this" |}.

Definition _calculate_criticality (components : list Component) : list Component :=
  map (fun comp => set_criticality comp (criticality_of components comp)) components.

(** *** Pass 8: graph analysis *)

(** [next(c for c in components if c.id == comp_id)] *)
Definition next_by_id (components : list Component) (cid : string)
  : outcome Component :=
  match find (fun c => String.eqb (id c) cid) components with
  | Some c => Ok c
  | None => Raise StopIteration
  end.

(** [max(l) if l else d] *)
Definition max_or (d : nat) (l : list nat) : nat :=
  match l with
  | [] => d
  | _ => list_max l
  end.

(** The nested [dfs] of [_find_critical_path]; the state is [(visited, path)]. *)
Fixpoint dfs (fuel : nat) (components : list Component)
    (st : gset string * list string) (cid : string)
  : outcome (nat * (gset string * list string)) :=
  match fuel with
  | O => OutOfFuel
  | S fuel' =>
      let '(visited, path) := st in
      if bool_decide (cid ∈ visited) then Ok (O, (visited, path))
      else
        let visited := {[cid]} ∪ visited in
        comp ← next_by_id components cid;
        match dependencies comp with
        | [] => Ok (1%nat, (visited, path ++ [cid]))
        | deps =>
            '(depths, (visited', path')) ← traverse (dfs fuel' components) deps (visited, path);
            Ok ((max_or 0 depths + 1)%nat, (visited', path' ++ [cid]))
        end
  end.

Definition _find_critical_path (fuel : nat) (components : list Component)
  : outcome (list string) :=
  start ← py_max_by (fun c => score (criticality c)) components;
  '(_, (_, path)) ← dfs fuel components (∅, []) (id start);
  Ok (rev path).

Definition has_dep_relation (comp other : Component) : bool :=
  mem (id other) (dependencies comp) || mem (id comp) (dependencies other).

(** The inner loop of [_find_parallelizable]; the state is [(group, processed)]. *)
Definition grow_step (comp : Component) (st : list string * gset string)
    (other : Component) : list string * gset string :=
  let '(group, processed) := st in
  if bool_decide (id other ∈ processed) then (group, processed)
  else if negb (has_dep_relation comp other)
  then (group ++ [id other], {[id other]} ∪ processed)
  else (group, processed).

Definition grow_group (components : list Component) (comp : Component)
    (st : list string * gset string) : list string * gset string :=
  fold_left (grow_step comp) components st.

Definition parallel_step (components : list Component)
    (st : list (list string) * gset string) (comp : Component)
  : list (list string) * gset string :=
  let '(groups, processed) := st in
  if bool_decide (id comp ∈ processed) then (groups, processed)
  else
    let '(group, processed') :=
      grow_group components comp ([id comp], {[id comp]} ∪ processed) in
    (if (1 <? length group)%nat then groups ++ [group] else groups, processed').

Definition _find_parallelizable (components : list Component) : list (list string) :=
  fst (fold_left (parallel_step components) components ([], ∅)).

(** The nested [get_depth] of [_calculate_max_depth]; the state is [depths]. *)
Fixpoint get_depth (fuel : nat) (components : list Component)
    (depths : gmap string nat) (cid : string) : outcome (nat * gmap string nat) :=
  match fuel with
  | O => OutOfFuel
  | S fuel' =>
      match depths !! cid with
      | Some d => Ok (d, depths)
      | None =>
          comp ← next_by_id components cid;
          match dependencies comp with
          | [] => Ok (1%nat, <[cid := 1%nat]> depths)
          | deps =>
              '(dep_depths, depths') ← traverse (get_depth fuel' components) deps depths;
              let depth := match dep_depths with
                           | [] => 1%nat
                           | _ => (list_max dep_depths + 1)%nat
                           end in
              Ok (depth, <[cid := depth]> depths')
          end
      end
  end.

Definition _calculate_max_depth (fuel : nat) (components : list Component)
  : outcome nat :=
  '(all_depths, _) ← traverse (get_depth fuel components) (map id components) ∅;
  Ok (max_or 1 all_depths).

Definition _estimate_complexity (fuel : nat) (components : list Component)
  : outcome string :=
  let count := length components in
  let avg_coupling :=
    (py_sum (map (fun c => score (coupling c)) components)
       / Q_of_nat (Nat.max count 1))%Q in
  depth ← _calculate_max_depth fuel components;
  Ok (if (count <=? 3)%nat && Qltb avg_coupling 0.4 && (depth <=? 2)%nat then "low"
      else if (count <=? 7)%nat && Qltb avg_coupling 0.6 && (depth <=? 4)%nat then "medium"
      else if (count <=? 12)%nat && Qltb avg_coupling 0.8 && (depth <=? 6)%nat then "high"
      else "very high").

Definition _calculate_overall_confidence (components : list Component) : Q :=
  match components with
  | [] => 0.0
  | _ => (py_sum (map (fun c => confidence (metadata c)) components)
            / Q_of_nat (length components))%Q
  end.

Definition vague_terms : list string :=
  ["maybe"; "possibly"; "might"; "could"; "approximately"].

Definition _detect_noise (problem_text : string) (components : list Component)
  : option Noise :=
  if (String.length problem_text <? 50)%nat then
    Some {| noise_type := "epistemic";
            noise_description := "Problem description lacks detail and context" |}
  else if existsb (fun term => contains term (lower problem_text)) vague_terms then
    Some {| noise_type := "aleatory";
            noise_description := "Problem contains uncertain or probabilistic elements" |}
  else
    let low_conf :=
      List.filter (fun c => Qltb (confidence (metadata c)) 0.5) components in
    if Qltb (Q_of_nat (length components) * 0.3)%Q (Q_of_nat (length low_conf)) then
      Some {| noise_type := "human";
              noise_description := "High uncertainty in component extraction" |}
    else None.

(** *** The pipeline *)

Definition noise_warning (noise : option Noise) : list string :=
  match noise with
  | Some n => ["Detected " +:+ noise_type n +:+ " noise: " +:+ noise_description n]
  | None => []
  end.

(** [DecompositionOperator.decompose]. The accumulators [self.reasoning],
    [self.decisions] and [self.warnings] start empty and are threaded through
    the passes. *)
Definition DecompositionOperator_decompose (fuel : nat) (problem_text : string)
    (context : option (gmap string string)) (constraints : option (list string))
  : outcome DecompositionResult :=
  let actions := _extract_actions problem_text in
  let entities := _extract_entities problem_text in
  let all_constraints := _extract_constraints problem_text constraints in
  let '(components, decision) := _build_components actions entities all_constraints in
  let components := _detect_dependencies components problem_text in
  let '(components, coupling_warnings) := _calculate_coupling components in
  let components := _calculate_criticality components in
  let parallelizable := _find_parallelizable components in
  critical_path ← _find_critical_path fuel components;
  let noise := _detect_noise problem_text components in
  depth ← _calculate_max_depth fuel components;
  complexity ← _estimate_complexity fuel components;
  Ok {| components := components;
        critical_path := critical_path;
        parallelizable := parallelizable;
        reasoning :=
          {| steps :=
               [ "Pass 1: Identified " +:+ of_nat (length actions) +:+ " potential actions";
                 "Pass 2: Identified " +:+ of_nat (length entities) +:+ " entities";
                 "Pass 3: Identified " +:+ of_nat (length all_constraints) +:+ " constraints";
                 "Pass 4: Generated " +:+ of_nat (length components) +:+ " components";
                 "Pass 5: Mapped dependencies";
                 "Pass 6: Calculated coupling scores";
                 "Pass 7: Identified critical path";
                 "Decomposition completed in " +:+ format_2f duration +:+ "ms" ];
             decisions := [decision] |};
        result_metadata :=
          {| total_components := length components;
             max_depth := depth;
             estimated_complexity := complexity;
             overall_confidence := _calculate_overall_confidence components;
             noise_detected := noise |};
        warnings := coupling_warnings ++ noise_warning noise |}.

(** The module-level [decompose]: a fresh operator, the arguments passed on. *)
Definition decompose (fuel : nat) (problem_text : string)
    (context : option (gmap string string)) (constraints : option (list string))
  : outcome DecompositionResult :=
  DecompositionOperator_decompose fuel problem_text context constraints.

(** The component collection after pass 4, and after passes 5 to 7. *)
Definition built_components (problem_text : string) (constraints : option (list string))
  : list Component :=
  build_list (_extract_actions problem_text) (_extract_entities problem_text)
    (_extract_constraints problem_text constraints).

Definition analyse (components : list Component) (problem_text : string)
  : list Component :=
  _calculate_criticality
    (fst (_calculate_coupling (_detect_dependencies components problem_text))).

Definition analysed_components (problem_text : string)
    (constraints : option (list string)) : list Component :=
  analyse (built_components problem_text constraints) problem_text.

(** *** Vocabulary of the statements *)

(** [x] depends directly on [y]: the dependencies of the component with id [x]
    list [y]. *)
Definition dep_edge (components : list Component) (x y : string) : Prop :=
  exists c, In c components /\ id c = x /\ In y (dependencies c).

Definition component_ids (components : list Component) : list string :=
  map id components.

(** The layer of a component in the dependency order: constraints at the
    bottom, entities above them, actions above both, in the order of
    [sequence]. *)
Definition rank (c : Component) : nat :=
  match type c with
  | constraint => 0
  | entity => 1
  | action => Z.to_nat (sequence_index (description c) + 3)
  | relationship => 0
  end.

(** What pass 4 guarantees of every component. *)
Definition fresh (c : Component) : Prop :=
  dependencies c = [] /\ type c <> relationship
  /\ Qltb (confidence (metadata c)) 0.5 = false.

(** [a] is the component [b] of [B] after passes 5 to 7: same identity, the
    inferred edges appended to its dependencies. *)
Definition analysed_from (B : list Component) (text : string) (b a : Component) : Prop :=
  id a = id b /\ type a = type b /\ description a = description b
  /\ metadata a = metadata b
  /\ dependencies a
     = dependencies b ++ co_mention_edges B (sentences_of text) b ++ constraint_edges B b.

(** The three kinds of edge [c] -> [k] that dependency inference creates. *)
Definition ordered_edge (c k : Component) : Prop :=
  (type c <> constraint /\ type k = constraint)
  \/ (type c = action /\ type k = entity)
  \/ (type c = action /\ type k = action
      /\ (0 <= sequence_index (description k) < sequence_index (description c))%Z).

(** Ids are unique and every dependency names a component of a lower rank. *)
Definition well_ranked (cs : list Component) : Prop :=
  NoDup (map id cs)
  /\ forall c d, In c cs -> In d (dependencies c) ->
       exists c', In c' cs /\ id c' = d /\ rank c' < rank c.

(** The edges as [dfs] follows them: look the component up, read its list. *)
Definition succ_of (cs : list Component) (x y : string) : Prop :=
  exists c, next_by_id cs x = Ok c /\ In y (dependencies c).

(** From the state [(V, P)], a walk started at [roots] ends in [(V', P')]: it
    appended the newly visited ids [L], each once; they are reachable from the
    roots, they were looked up, and all their successors are visited. *)
Definition walked (cs : list Component) (V : gset string) (P : list string)
    (roots : list string) (V' : gset string) (P' : list string) (L : list string) : Prop :=
  P' = P ++ L /\ NoDup L
  /\ (forall x, x ∈ V' <-> x ∈ V \/ In x L)
  /\ (forall x, In x L -> x ∉ V)
  /\ (forall x, In x L -> exists w, In w roots /\ rtc (succ_of cs) w x)
  /\ (forall x y, In x L -> succ_of cs x y -> y ∈ V')
  /\ (forall x, In x L -> exists c, next_by_id cs x = Ok c).

(** The test under which the co-mention loop appends [other.id]. *)
Definition co_mention_selects (sentences : list string) (comp other : Component) : bool :=
  negb (String.eqb (id comp) (id other))
  && existsb (mentions other) (List.filter (mentions comp) sentences)
  && (is_type (type comp) action && is_type (type other) entity
      || is_type (type comp) action && is_type (type other) action
         && _is_sequential (description comp) (description other)).

(** The component collection after pass 5. *)
Definition inferred_components (problem_text : string)
    (constraints : option (list string)) : list Component :=
  _detect_dependencies (built_components problem_text constraints) problem_text.

(** [x] was admitted to the group seeded by [comp]. *)
Definition admitted (cs : list Component) (comp : Component) (x : string) : Prop :=
  exists other, In other cs /\ id other = x /\ has_dep_relation comp other = false.

(** A retained group: a seed, then at least one id admitted by that seed. *)
Definition seeded_group (cs : list Component) (g : list string) : Prop :=
  exists comp rest,
    In comp cs /\ g = id comp :: rest /\ rest <> []
    /\ forall x, In x rest -> admitted cs comp x.

Definition nth_component (cs : list Component) (n : nat) : Component :=
  nth n cs (entity_component "" "").

(** The component with id [a] lists [b] among its dependencies. *)
Definition has_edge (cs : list Component) (a b : string) : bool :=
  existsb (fun c => String.eqb (id c) a && mem b (dependencies c)) cs.

Definition dependent_pair_in_group (cs : list Component) (g : list string) : bool :=
  existsb (fun a => existsb (fun b => has_edge cs a b) g) g.

(** A group of [_find_parallelizable] holds two ids joined by a direct edge. *)
Definition groups_hold_dependent_pair (cs : list Component) : bool :=
  existsb (dependent_pair_in_group cs) (_find_parallelizable cs).

(** [f] lists every set in some order: its elements, each once. *)
Definition iteration_order (f : list string -> list string) : Prop :=
  forall l, Permutation (f l) l.


(** The depth of a component as [get_depth] defines it, without the memo: 1
    for a component with no dependencies, else one more than the deepest of
    its dependencies. *)
Fixpoint depth_of (fuel : nat) (cs : list Component) (cid : string) : nat :=
  match fuel with
  | O => O
  | S fuel' =>
      match find (fun c => String.eqb (id c) cid) cs with
      | None => O
      | Some c =>
          match dependencies c with
          | [] => 1
          | deps => list_max (map (depth_of fuel' cs) deps) + 1
          end
      end
  end.

(** A dependency chain: ids of components, each depending directly on the
    next. *)
Fixpoint chain (cs : list Component) (l : list string) : Prop :=
  match l with
  | [] => True
  | x :: l' =>
      match l' with
      | [] => exists c, In c cs /\ id c = x
      | y :: _ => dep_edge cs x y /\ chain cs l'
      end
  end.

(** Every entry of the memo is the depth of its key. *)
Definition memo_ok (cs : list Component) (depths : gmap string nat) : Prop :=
  forall k d, depths !! k = Some d -> d = depth_of 9 cs k.

(** Every id of [path] has all its direct dependencies later in [path]. *)
Fixpoint dependencies_follow (cs : list Component) (path : list string) : Prop :=
  match path with
  | [] => True
  | x :: rest => (forall y, dep_edge cs x y -> In y rest) /\ dependencies_follow cs rest
  end.

(** The rank of the component [next_by_id] finds for an id. *)
Definition rank_of (cs : list Component) (x : string) : nat :=
  match find (fun c => String.eqb (id c) x) cs with
  | Some c => rank c
  | None => 0
  end.

(** Some sentence of the text mentions the descriptions of both components. *)
Definition co_mentioned (text : string) (c k : Component) : Prop :=
  exists s, In s (sentences_of text) /\ mentions c s = true /\ mentions k s = true.


(** The walked part of the state is what the path lists; ids visited but
    not yet listed are the callers still open, all of higher rank. *)
Definition open_above (cs : list Component) (V : gset string) (P : list string)
    (ws : list string) : Prop :=
  forall s, s ∈ V -> In s P \/ forall w, In w ws -> rank_of cs w < rank_of cs s.

(** What the outer loop of [_find_parallelizable] has established when
    [seeds] are the seeds whose groups were dropped. *)
Definition leftover_invariant (cs : list Component) (groups : list (list string))
    (processed : gset string) (seeds : list Component) : Prop :=
  (forall s, In s seeds ->
     In s cs /\ forall other, In other cs ->
                  id other ∈ processed \/ has_dep_relation s other = true)
  /\ (forall x, x ∈ processed ->
        In x (concat groups) \/ exists s, In s seeds /\ id s = x)
  /\ (forall s1 s2, In s1 seeds -> In s2 seeds -> id s1 <> id s2 ->
        has_dep_relation s1 s2 = true).

(** ** Properties *)

(** *** Ids *)

Lemma of_nat_inj (n m : nat) : of_nat n = of_nat m -> n = m.
Proof.
  unfold of_nat. intros H.
  apply (f_equal NilEmpty.uint_of_string) in H.
  rewrite !NilEmpty.usu in H.
  injection H as H.
  apply (f_equal Nat.of_uint) in H.
  by rewrite !Unsigned.of_to in H.
Qed.

Lemma comp_id_inj (n m : nat) : comp_id n = comp_id m -> n = m.
Proof.
  unfold comp_id. intros H.
  by apply of_nat_inj, (String.app_inj "comp_").
Qed.

Lemma build_from_length {A : Type} (mk : string -> A -> Component) n xs :
  length (build_from mk n xs) = length xs.
Proof. revert n. induction xs as [|x xs IH]; intros n; simpl; [done | by rewrite IH]. Qed.

Lemma build_from_ids {A : Type} (mk : string -> A -> Component) n xs :
  (forall cid x, id (mk cid x) = cid) ->
  map id (build_from mk n xs) = map comp_id (seq n (length xs)).
Proof.
  intros Hmk. revert n.
  induction xs as [|x xs IH]; intros n; simpl; [done|].
  by rewrite Hmk, IH.
Qed.

Lemma build_from_elem {A : Type} (mk : string -> A -> Component) n xs c :
  In c (build_from mk n xs) -> exists cid x, c = mk cid x.
Proof.
  revert n. induction xs as [|x xs IH]; intros n; simpl.
  - done.
  - intros [<-|Hin]; [by eauto | by eapply IH].
Qed.

Lemma build_list_ids actions entities constraints :
  map id (build_list actions entities constraints)
  = map comp_id (seq 0 (length (build_list actions entities constraints))).
Proof.
  unfold build_list.
  rewrite !length_app, !map_app, !seq_app, !map_app.
  rewrite !build_from_ids by done.
  by rewrite !build_from_length.
Qed.

Lemma build_list_NoDup actions entities constraints :
  NoDup (map id (build_list actions entities constraints)).
Proof.
  rewrite build_list_ids.
  apply (NoDup_fmap_2_strong comp_id).
  - intros n m _ _. apply comp_id_inj.
  - apply NoDup_seq.
Qed.

Lemma build_list_cases actions entities constraints c :
  In c (build_list actions entities constraints) ->
  (exists cid a, c = action_component entities cid a)
  \/ (exists cid e, c = entity_component cid e)
  \/ (exists cid k, c = constraint_component cid k).
Proof.
  unfold build_list.
  rewrite !in_app_iff.
  intros [H|[H|H]]; apply build_from_elem in H; eauto.
Qed.

Lemma build_list_fresh actions entities constraints c :
  In c (build_list actions entities constraints) -> fresh c.
Proof.
  intros [(cid & a & ->)|[(cid & e & ->)|(cid & k & ->)]]%build_list_cases;
    repeat split; done.
Qed.

(** *** What passes 5 to 7 do to a component *)

Lemma analyse_elem B text a :
  In a (analyse B text) -> exists b, In b B /\ analysed_from B text b a.
Proof.
  unfold analyse, _calculate_criticality, _calculate_coupling, _detect_dependencies.
  cbn [fst].
  intros (c & <- & Hc)%in_map_iff.
  apply in_map_iff in Hc as (d & <- & Hd).
  apply in_map_iff in Hd as (b & <- & Hb).
  exists b. by repeat split.
Qed.

Lemma analyse_elem_of B text b :
  In b B -> exists a, In a (analyse B text) /\ analysed_from B text b a.
Proof.
  intros Hb.
  unfold analyse, _calculate_criticality, _calculate_coupling, _detect_dependencies.
  cbn [fst].
  eexists. split.
  - apply in_map, in_map, in_map, Hb.
  - by repeat split.
Qed.

Lemma analyse_ids B text : map id (analyse B text) = map id B.
Proof.
  unfold analyse, _calculate_criticality, _calculate_coupling, _detect_dependencies.
  cbn [fst]. rewrite !map_map. by apply map_ext.
Qed.

Lemma analyse_scores B text a :
  In a (analyse B text) ->
  exists cs1 c1 cs2 c2,
    coupling a = coupling_of cs1 c1 /\ criticality a = criticality_of cs2 c2.
Proof.
  unfold analyse, _calculate_criticality, _calculate_coupling.
  cbn [fst].
  intros (c & <- & Hc)%in_map_iff.
  apply in_map_iff in Hc as (d & <- & Hd).
  cbn. eauto 10.
Qed.

Lemma is_type_true t u : is_type t u = true <-> t = u.
Proof. unfold is_type. apply bool_decide_eq_true. Qed.

Lemma is_type_false t u : is_type t u = false <-> t <> u.
Proof. unfold is_type. apply bool_decide_eq_false. Qed.

Lemma co_mention_edges_spec B S comp d :
  In d (co_mention_edges B S comp) ->
  exists other,
    In other B /\ d = id other /\ type comp = action
    /\ (type other = entity
        \/ (type other = action
            /\ _is_sequential (description comp) (description other) = true)).
Proof.
  unfold co_mention_edges.
  intros (other & Hother & Hd)%in_flat_map.
  exists other. split; [done|].
  destruct (String.eqb _ _); [done|].
  destruct (existsb _ _); [|done].
  destruct (is_type (type comp) action) eqn:Hc; cbn [andb] in Hd; [|done].
  apply is_type_true in Hc.
  destruct (is_type (type other) entity) eqn:He.
  - apply is_type_true in He. destruct Hd as [<-|[]]. eauto.
  - destruct (is_type (type other) action) eqn:Ha; cbn [andb] in Hd; [|done].
    apply is_type_true in Ha.
    destruct (_is_sequential _ _) eqn:Hs; [|done].
    destruct Hd as [<-|[]]. eauto 10.
Qed.

Lemma constraint_edges_spec B comp d :
  In d (constraint_edges B comp) <->
  type comp <> constraint
  /\ exists other, In other B /\ type other = constraint /\ d = id other.
Proof.
  unfold constraint_edges.
  destruct (is_type (type comp) constraint) eqn:Hc; cbn [negb].
  - apply is_type_true in Hc. split; [done | by intros [? _]].
  - apply is_type_false in Hc. rewrite in_flat_map. split.
    + intros (other & Hother & Hd).
      destruct (is_type (type other) constraint) eqn:Ho; [|done].
      apply is_type_true in Ho. destruct Hd as [<-|[]]. eauto 10.
    + intros (_ & other & Hother & Ho & ->).
      exists other. split; [done|].
      apply is_type_true in Ho. rewrite Ho. by left.
Qed.

(** *** The dependency order *)

Lemma first_index_bounds p l i :
  (0 <= i)%Z ->
  (first_index p l i = -1 \/ i <= first_index p l i < i + Z.of_nat (length l))%Z.
Proof.
  revert i. induction l as [|s l IH]; intros i Hi; cbn [first_index length].
  - by left.
  - destruct (p s); [right; lia|].
    destruct (IH (i + 1)%Z) as [->|?]; [lia | by left | right; lia].
Qed.

Lemma sequence_index_bounds a : (-1 <= sequence_index a <= 5)%Z.
Proof.
  unfold sequence_index.
  assert (length sequence = 6) as Hlen by reflexivity.
  destruct (first_index_bounds (fun s => contains s a) sequence 0) as [->|H];
    [lia | lia | rewrite Hlen in H; lia].
Qed.

Lemma rank_le c : rank c <= 8.
Proof.
  unfold rank. pose proof (sequence_index_bounds (description c)).
  destruct (type c); lia.
Qed.

Lemma rank_sequential a b :
  type a = action -> type b = action ->
  _is_sequential (description a) (description b) = true -> rank b < rank a.
Proof.
  unfold rank, _is_sequential. intros -> -> H.
  pose proof (sequence_index_bounds (description a)).
  pose proof (sequence_index_bounds (description b)).
  apply andb_true_iff in H as [_ H]. apply Z.ltb_lt in H. lia.
Qed.

Lemma rank_analysed_from B text b a : analysed_from B text b a -> rank a = rank b.
Proof. intros (_ & Ht & Hd & _). unfold rank. by rewrite Ht, Hd. Qed.

Lemma is_sequential_order a b :
  _is_sequential a b = true -> (0 <= sequence_index b < sequence_index a)%Z.
Proof.
  unfold _is_sequential. pose proof (sequence_index_bounds b).
  intros [[_ H2%negb_true_iff%Z.eqb_neq]%andb_true_iff Hlt%Z.ltb_lt]%andb_true_iff.
  lia.
Qed.

Lemma ordered_edge_rank c k :
  type c <> relationship -> ordered_edge c k -> rank k < rank c.
Proof.
  unfold ordered_edge, rank. intros Hrel.
  pose proof (sequence_index_bounds (description c)).
  intros [[Hc ->]|[[-> ->]|(-> & -> & Hidx)]]; [|lia|lia].
  destruct (type c); [lia | lia | done | done].
Qed.

Lemma analyse_edges B text a d :
  (forall b, In b B -> fresh b) ->
  In a (analyse B text) -> In d (dependencies a) ->
  exists k, In k (analyse B text) /\ id k = d /\ ordered_edge a k.
Proof.
  intros Hfresh (b & Hb & Hab)%analyse_elem Hd.
  destruct (Hfresh b Hb) as (Hdeps & _).
  destruct Hab as (_ & Ht & Hdesc & _ & Ha).
  rewrite Ha, Hdeps in Hd. cbn [app] in Hd.
  assert (exists other, In other B /\ d = id other
            /\ ((type b <> constraint /\ type other = constraint)
                \/ (type b = action /\ type other = entity)
                \/ (type b = action /\ type other = action
                    /\ (0 <= sequence_index (description other)
                         < sequence_index (description b))%Z)))
    as (other & Hother & -> & Hkind).
  { apply in_app_iff in Hd as [Hd|Hd].
    - apply co_mention_edges_spec in Hd as (other & Hother & -> & Hact & Hcase).
      exists other. repeat split; [done|].
      destruct Hcase as [He|[Ho Hseq%is_sequential_order]]; [tauto|].
      right. right. done.
    - apply constraint_edges_spec in Hd as (Hnc & other & Hother & Ho & ->).
      exists other. repeat split; [done|]. by left. }
  destruct (analyse_elem_of B text other Hother) as (k & Hk & Hkid & Hkt & Hkd & _).
  exists k. split; [done|]. split; [done|].
  unfold ordered_edge. by rewrite Ht, Hdesc, Hkt, Hkd.
Qed.

Lemma analyse_well_ranked B text :
  NoDup (map id B) -> (forall b, In b B -> fresh b) -> well_ranked (analyse B text).
Proof.
  intros Hnd Hfresh. split; [by rewrite analyse_ids|].
  intros a d Ha Hd.
  destruct (analyse_edges B text a d Hfresh Ha Hd) as (k & Hk & Hid & Hedge).
  exists k. repeat split; [done..|].
  apply ordered_edge_rank; [|done].
  destruct (analyse_elem _ _ _ Ha) as (b & Hb & _ & -> & _).
  by destruct (Hfresh b Hb) as (_ & ? & _).
Qed.

Lemma analysed_components_well_ranked text cs :
  well_ranked (analysed_components text cs).
Proof.
  apply analyse_well_ranked.
  - apply build_list_NoDup.
  - intros b. apply build_list_fresh.
Qed.

Lemma find_by_id cs c :
  NoDup (map id cs) -> In c cs ->
  find (fun x => String.eqb (id x) (id c)) cs = Some c.
Proof.
  induction cs as [|x cs IH]; cbn [map find]; [done|].
  intros Hnd [->|Hin].
  - by rewrite String.eqb_refl.
  - apply NoDup_cons in Hnd as [Hx Hnd].
    destruct (String.eqb (id x) (id c)) eqn:Heq; [|by apply IH].
    apply String.eqb_eq in Heq. exfalso. apply Hx.
    rewrite Heq. apply list_elem_of_In. by apply in_map.
Qed.

Lemma id_unique cs c c' :
  NoDup (map id cs) -> In c cs -> In c' cs -> id c = id c' -> c = c'.
Proof.
  intros Hnd Hc Hc' Heq.
  pose proof (find_by_id cs c Hnd Hc) as H1.
  pose proof (find_by_id cs c' Hnd Hc') as H2.
  rewrite Heq in H1. congruence.
Qed.

Lemma next_by_id_ok cs c :
  NoDup (map id cs) -> In c cs -> next_by_id cs (id c) = Ok c.
Proof. intros Hnd Hc. unfold next_by_id. by rewrite find_by_id. Qed.

Lemma next_by_id_In cs cid c : next_by_id cs cid = Ok c -> In c cs /\ id c = cid.
Proof.
  unfold next_by_id. destruct (find _ cs) eqn:Hf; [|done].
  intros [= <-]. apply find_some in Hf as [? ?%String.eqb_eq]. done.
Qed.

(** *** The recursive helpers return *)

Lemma traverse_cons {S A B : Type} (f : S -> A -> outcome (B * S)) x l s :
  traverse f (x :: l) s
  = '(y, s1) ← f s x; '(ys, s2) ← traverse f l s1; Ok (y :: ys, s2).
Proof. reflexivity. Qed.

#[local] Arguments traverse : simpl never.

Lemma traverse_total {S A B : Type} (f : S -> A -> outcome (B * S)) l s :
  (forall s' x, In x l -> exists r, f s' x = Ok r) ->
  exists r, traverse f l s = Ok r.
Proof.
  revert s. induction l as [|x l IH]; intros s Hf; [by eexists|].
  rewrite traverse_cons.
  destruct (Hf s x) as [[y s1] Hx]; [by left|].
  rewrite Hx. cbn.
  destruct (IH s1) as [[ys s2] Hl]; [intros; apply Hf; by right|].
  rewrite Hl. cbn. eauto.
Qed.

Lemma dfs_total cs :
  well_ranked cs ->
  forall fuel st c, In c cs -> rank c < fuel -> exists r, dfs fuel cs st (id c) = Ok r.
Proof.
  intros [Hnd Hrk]. induction fuel as [|fuel IH]; intros [visited path] c Hc Hlt; [lia|].
  cbn [dfs]. destruct (bool_decide _); [by eauto|].
  rewrite (next_by_id_ok cs c Hnd Hc). cbn.
  destruct (dependencies c) as [|d deps] eqn:Hdeps; [by eauto|].
  destruct (traverse_total (dfs fuel cs) (d :: deps) ({[id c]} ∪ visited, path))
    as [[depths [v' p']] Ht].
  { intros s' x Hx. rewrite <- Hdeps in Hx.
    destruct (Hrk c x Hc Hx) as (c' & Hc' & <- & Hlt').
    apply IH; [done | lia]. }
  rewrite Ht. cbn. eauto.
Qed.

Lemma get_depth_total cs :
  well_ranked cs ->
  forall fuel depths c, In c cs -> rank c < fuel ->
    exists r, get_depth fuel cs depths (id c) = Ok r.
Proof.
  intros [Hnd Hrk]. induction fuel as [|fuel IH]; intros depths c Hc Hlt; [lia|].
  cbn [get_depth]. destruct (depths !! id c); [by eauto|].
  rewrite (next_by_id_ok cs c Hnd Hc). cbn.
  destruct (dependencies c) as [|d deps] eqn:Hdeps; [by eauto|].
  destruct (traverse_total (get_depth fuel cs) (d :: deps) depths)
    as [[dep_depths depths'] Ht].
  { intros s' x Hx. rewrite <- Hdeps in Hx.
    destruct (Hrk c x Hc Hx) as (c' & Hc' & <- & Hlt').
    apply IH; [done | lia]. }
  rewrite Ht. cbn. eauto.
Qed.

Lemma calculate_max_depth_total cs fuel :
  well_ranked cs -> 9 <= fuel -> exists d, _calculate_max_depth fuel cs = Ok d.
Proof.
  intros Hwr Hfuel. unfold _calculate_max_depth.
  destruct (traverse_total (get_depth fuel cs) (map id cs) ∅) as [[ds m] Ht].
  { intros s' x (c & <- & Hc)%in_map_iff.
    apply get_depth_total; [done | done |]. pose proof (rank_le c). lia. }
  rewrite Ht. cbn. eauto.
Qed.

Lemma estimate_complexity_total cs fuel :
  well_ranked cs -> 9 <= fuel -> exists l, _estimate_complexity fuel cs = Ok l.
Proof.
  intros Hwr Hfuel. unfold _estimate_complexity.
  destruct (calculate_max_depth_total cs fuel Hwr Hfuel) as [d ->]. cbn. eauto.
Qed.

Lemma fold_max_by_In {A : Type} (key : A -> Q) l x :
  In (fold_left (fun best c => if Qltb (key best) (key c) then c else best) l x) (x :: l).
Proof.
  revert x. induction l as [|y l IH]; intros x; cbn [fold_left]; [by left|].
  destruct (Qltb (key x) (key y)).
  - right. apply IH.
  - destruct (IH x) as [H|H]; [by left | by right; right].
Qed.

Lemma py_max_by_In {A : Type} (key : A -> Q) l x :
  py_max_by key l = Ok x -> In x l.
Proof.
  destruct l as [|y l]; cbn [py_max_by]; [done|].
  intros [= <-]. apply fold_max_by_In.
Qed.

Lemma find_critical_path_total cs fuel :
  well_ranked cs -> 9 <= fuel -> cs <> [] -> exists p, _find_critical_path fuel cs = Ok p.
Proof.
  intros Hwr Hfuel Hne. unfold _find_critical_path.
  destruct (py_max_by _ cs) as [start| |] eqn:Hmax;
    [|by destruct cs|by destruct cs].
  cbn. apply py_max_by_In in Hmax.
  destruct (dfs_total cs Hwr fuel (∅, []) start Hmax) as [[n [v p]] Hdfs].
  { pose proof (rank_le start). lia. }
  rewrite Hdfs. cbn. eauto.
Qed.

Lemma find_critical_path_empty fuel : _find_critical_path fuel [] = Raise ValueError.
Proof. reflexivity. Qed.

(** *** The result of a run *)

Lemma decompose_inv fuel text ctx cs r :
  decompose fuel text ctx cs = Ok r ->
  components r = analysed_components text cs
  /\ parallelizable r = _find_parallelizable (analysed_components text cs)
  /\ _find_critical_path fuel (analysed_components text cs) = Ok (critical_path r)
  /\ noise_detected (result_metadata r) = _detect_noise text (analysed_components text cs)
  /\ _calculate_max_depth fuel (analysed_components text cs)
     = Ok (max_depth (result_metadata r)).
Proof.
  unfold decompose, DecompositionOperator_decompose, _build_components, _calculate_coupling.
  fold (built_components text cs).
  change (_calculate_criticality
            (map (fun comp => set_coupling comp
                    (coupling_of (_detect_dependencies (built_components text cs) text) comp))
               (_detect_dependencies (built_components text cs) text)))
    with (analysed_components text cs).
  destruct (_find_critical_path fuel (analysed_components text cs)) as [p| |]; [|done|done].
  cbn [mbind outcome_bind].
  destruct (_calculate_max_depth fuel (analysed_components text cs)) as [d| |]; [|done|done].
  cbn [mbind outcome_bind].
  destruct (_estimate_complexity fuel (analysed_components text cs)) as [l| |]; [|done|done].
  cbn [mbind outcome_bind].
  intros [= <-]. by cbn.
Qed.

Lemma decompose_total fuel text ctx cs :
  9 <= fuel -> analysed_components text cs <> [] ->
  exists r, decompose fuel text ctx cs = Ok r.
Proof.
  intros Hfuel Hne.
  pose proof (analysed_components_well_ranked text cs) as Hwr.
  unfold decompose, DecompositionOperator_decompose, _build_components, _calculate_coupling.
  fold (built_components text cs).
  change (_calculate_criticality
            (map (fun comp => set_coupling comp
                    (coupling_of (_detect_dependencies (built_components text cs) text) comp))
               (_detect_dependencies (built_components text cs) text)))
    with (analysed_components text cs).
  destruct (find_critical_path_total _ fuel Hwr Hfuel Hne) as [p ->].
  cbn [mbind outcome_bind].
  destruct (calculate_max_depth_total _ fuel Hwr Hfuel) as [d ->].
  cbn [mbind outcome_bind].
  destruct (estimate_complexity_total _ fuel Hwr Hfuel) as [l ->].
  cbn [mbind outcome_bind]. eauto.
Qed.

Lemma decompose_empty fuel text ctx cs :
  analysed_components text cs = [] -> decompose fuel text ctx cs = Raise ValueError.
Proof.
  intros He.
  unfold decompose, DecompositionOperator_decompose, _build_components, _calculate_coupling.
  fold (built_components text cs).
  change (_calculate_criticality
            (map (fun comp => set_coupling comp
                    (coupling_of (_detect_dependencies (built_components text cs) text) comp))
               (_detect_dependencies (built_components text cs) text)))
    with (analysed_components text cs).
  by rewrite He.
Qed.

(** *** The depth-first walk *)

Lemma traverse_dfs_walked cs fuel :
  (forall V P v d V' P',
      dfs fuel cs (V, P) v = Ok (d, (V', P')) ->
      exists L, walked cs V P [v] V' P' L /\ v ∈ V') ->
  forall deps V P ds V' P',
    traverse (dfs fuel cs) deps (V, P) = Ok (ds, (V', P')) ->
    exists L, walked cs V P deps V' P' L /\ (forall w, In w deps -> w ∈ V').
Proof.
  intros IH. induction deps as [|w ws IHws]; intros V P ds V' P' Ht.
  - injection Ht as <- <- <-. exists []. split; [|done].
    unfold walked. rewrite app_nil_r. repeat split; try done.
    + constructor.
    + by left.
    + by intros [?|[]].
  - rewrite traverse_cons in Ht.
    destruct (dfs fuel cs (V, P) w) as [[y [V1 P1]]| |] eqn:Hw; [|done|done].
    cbn [mbind outcome_bind] in Ht.
    destruct (traverse (dfs fuel cs) ws (V1, P1)) as [[ys [V2 P2]]| |] eqn:Hws;
      [|done|done].
    cbn [mbind outcome_bind] in Ht. injection Ht as <- <- <-.
    destruct (IH _ _ _ _ _ _ Hw) as (L1 & (HP1 & Hnd1 & HV1 & Hnew1 & Hr1 & Hc1 & Hl1) & Hw1).
    destruct (IHws _ _ _ _ _ Hws)
      as (L2 & (HP2 & Hnd2 & HV2 & Hnew2 & Hr2 & Hc2 & Hl2) & Hws2).
    exists (L1 ++ L2). split; [|].
    + unfold walked. repeat split.
      * by rewrite HP2, HP1, app_assoc.
      * apply NoDup_app. repeat split; [done| |done].
        intros x Hx1%list_elem_of_In Hx2%list_elem_of_In.
        apply (Hnew2 x Hx2). apply HV1. by right.
      * rewrite HV2, HV1, in_app_iff. tauto.
      * rewrite HV2, HV1, in_app_iff. tauto.
      * intros x [Hx|Hx]%in_app_iff; [by apply Hnew1|].
        intros HxV. apply (Hnew2 x Hx). apply HV1. by left.
      * intros x [Hx|Hx]%in_app_iff.
        -- destruct (Hr1 x Hx) as (w' & [<-|[]] & Hrtc). exists w. split; [by left|done].
        -- destruct (Hr2 x Hx) as (w' & Hw' & Hrtc). exists w'. split; [by right|done].
      * intros x z [Hx|Hx]%in_app_iff Hxz.
        -- apply HV2. left. by apply (Hc1 x z).
        -- by apply (Hc2 x z).
      * intros x [Hx|Hx]%in_app_iff; [by apply Hl1 | by apply Hl2].
    + intros w' [<-|Hw']; [|by apply Hws2].
      apply HV2. by left.
Qed.

Lemma dfs_walked cs fuel V P v d V' P' :
  dfs fuel cs (V, P) v = Ok (d, (V', P')) ->
  exists L, walked cs V P [v] V' P' L /\ v ∈ V'.
Proof.
  revert V P v d V' P'. induction fuel as [|fuel IH]; intros V P v d V' P'; [done|].
  cbn [dfs]. case_bool_decide as Hv.
  - intros [= <- <- <-]. exists []. split; [|done].
    unfold walked. rewrite app_nil_r. repeat split; try done.
    + constructor.
    + by left.
    + by intros [?|[]].
  - destruct (next_by_id cs v) as [comp| |] eqn:Hcomp; [|done|done].
    cbn [mbind outcome_bind].
    destruct (dependencies comp) as [|w ws] eqn:Hdeps.
    + intros [= <- <- <-]. exists [v]. split; [|set_solver].
      unfold walked. repeat split.
      * apply NoDup_singleton.
      * rewrite elem_of_union, elem_of_singleton. cbn. intros [->|?]; tauto.
      * rewrite elem_of_union, elem_of_singleton. cbn. intros [?|[->|[]]]; tauto.
      * by intros x [<-|[]].
      * intros x [<-|[]]. exists v. split; [by left | done].
      * intros x y [<-|[]] (c & Hc & Hy). rewrite Hcomp in Hc.
        injection Hc as <-. by rewrite Hdeps in Hy.
      * intros x [<-|[]]. eauto.
    + destruct (traverse (dfs fuel cs) (w :: ws) ({[v]} ∪ V, P))
        as [[depths [V1 P1]]| |] eqn:Ht; [|done|done].
      cbn [mbind outcome_bind]. intros [= <- <- <-].
      destruct (traverse_dfs_walked cs fuel IH _ _ _ _ _ _ Ht)
        as (L & (HP & Hnd & HV & Hnew & Hr & Hc & Hl) & Hall).
      exists (L ++ [v]). split.
      * unfold walked. repeat split.
        -- by rewrite HP, app_assoc.
        -- apply NoDup_app. repeat split; [done| |apply NoDup_singleton].
           intros x Hx%list_elem_of_In ->%list_elem_of_singleton.
           apply (Hnew v Hx), elem_of_union. left. by apply elem_of_singleton.
        -- rewrite HV, elem_of_union, elem_of_singleton, in_app_iff. cbn.
           intros [[->|?]|?]; auto.
        -- rewrite HV, elem_of_union, elem_of_singleton, in_app_iff. cbn.
           intros [?|[?|[->|[]]]]; auto.
        -- intros x [Hx|[<-|[]]]%in_app_iff; [|done].
           intros HxV. apply (Hnew x Hx), elem_of_union. by right.
        -- intros x [Hx|[<-|[]]]%in_app_iff.
           ++ destruct (Hr x Hx) as (w' & Hw' & Hrtc).
              exists v. split; [by left|].
              eapply rtc_l; [|exact Hrtc].
              exists comp. split; [done|]. by rewrite Hdeps.
           ++ exists v. split; [by left | done].
        -- intros x y [Hx|[<-|[]]]%in_app_iff Hxy; [by apply (Hc x y)|].
           destruct Hxy as (c & Hc' & Hy). rewrite Hcomp in Hc'.
           injection Hc' as <-. rewrite Hdeps in Hy. by apply Hall.
        -- intros x [Hx|[<-|[]]]%in_app_iff; [by apply Hl | by eauto].
      * apply HV. left. apply elem_of_union. left. by apply elem_of_singleton.
Qed.

(** A completed walk lists its root last. *)
Lemma dfs_root_last cs fuel V P v d V' P' :
  dfs fuel cs (V, P) v = Ok (d, (V', P')) -> v ∉ V -> exists L0, P' = P ++ L0 ++ [v].
Proof.
  destruct fuel as [|fuel]; [done|].
  cbn [dfs]. intros H Hv. rewrite bool_decide_eq_false_2 in H by done.
  destruct (next_by_id cs v) as [comp| |]; [|done|done].
  cbn [mbind outcome_bind] in H.
  destruct (dependencies comp) as [|w ws].
  - injection H as <- <- <-. by exists [].
  - destruct (traverse (dfs fuel cs) (w :: ws) ({[v]} ∪ V, P))
      as [[depths [V1 P1]]| |] eqn:Ht; [|done|done].
    cbn [mbind outcome_bind] in H. injection H as <- <- <-.
    destruct (traverse_dfs_walked cs fuel (dfs_walked cs fuel) _ _ _ _ _ _ Ht)
      as (L & (HP & _) & _).
    exists L. by rewrite HP, app_assoc.
Qed.

Lemma succ_of_dep_edge cs x y :
  NoDup (map id cs) -> succ_of cs x y <-> dep_edge cs x y.
Proof.
  intros Hnd. unfold succ_of, dep_edge. split.
  - intros (c & [Hc Hid]%next_by_id_In & Hy). eauto.
  - intros (c & Hc & <- & Hy). exists c. split; [by apply next_by_id_ok | done].
Qed.

Lemma rtc_succ_of_dep_edge cs x y :
  NoDup (map id cs) -> rtc (succ_of cs) x y <-> rtc (dep_edge cs) x y.
Proof.
  intros Hnd. split; intros H; induction H as [|a b c Hab _ IH]; try done;
    (eapply rtc_l; [|exact IH]); by apply (succ_of_dep_edge cs a b Hnd).
Qed.

Lemma find_critical_path_spec cs fuel path :
  _find_critical_path fuel cs = Ok path ->
  exists start n V walk,
    py_max_by (fun c => score (criticality c)) cs = Ok start
    /\ dfs fuel cs (∅, []) (id start) = Ok (n, (V, walk))
    /\ path = rev walk
    /\ (exists rest, path = id start :: rest)
    /\ NoDup path
    /\ (forall x, In x path <-> rtc (succ_of cs) (id start) x)
    /\ (forall x, In x path -> exists c, next_by_id cs x = Ok c).
Proof.
  unfold _find_critical_path.
  destruct (py_max_by _ cs) as [start| |] eqn:Hmax; [|done|done].
  cbn [mbind outcome_bind].
  destruct (dfs fuel cs (∅, []) (id start)) as [[n [V walk]]| |] eqn:Hdfs; [|done|done].
  cbn [mbind outcome_bind]. intros [= <-].
  exists start, n, V, walk. do 3 (split; [done|]).
  destruct (dfs_walked _ _ _ _ _ _ _ _ Hdfs)
    as (L & (HP & Hnd & HV & Hnew & Hr & Hc & Hl) & Hroot).
  destruct (dfs_root_last _ _ _ _ _ _ _ _ Hdfs) as (L0 & HL0); [set_solver|].
  cbn [app] in HP, HL0. subst walk.
  assert (forall x, x ∈ V -> In x L) as HVL.
  { intros x [Hx|Hx]%HV; [set_solver | done]. }
  assert (forall a b, rtc (succ_of cs) a b -> a ∈ V -> b ∈ V) as Hclosed.
  { intros a b Hrtc. induction Hrtc as [|a b c Hab _ IH]; [done|].
    intros Ha. apply IH. apply (Hc a b); [by apply HVL | done]. }
  split; [exists (rev L0); by rewrite HL0, rev_app_distr|].
  split; [by apply NoDup_ListNoDup, List.NoDup_rev, NoDup_ListNoDup|].
  split.
  - intros x. rewrite <- in_rev. split.
    + intros Hx. by destruct (Hr x Hx) as (w & [<-|[]] & Hrtc).
    + intros Hrtc. by apply HVL, (Hclosed _ _ Hrtc).
  - intros x Hx%in_rev. by apply Hl.
Qed.

(** *** Comparisons on scores *)

Lemma Qltb_lt x y : Qltb x y = true <-> (x < y)%Q.
Proof.
  unfold Qltb. rewrite negb_true_iff, <- not_true_iff_false, Qle_bool_iff.
  split; [apply Qnot_le_lt | apply Qlt_not_le].
Qed.

Lemma Qltb_ge x y : Qltb x y = false <-> (y <= x)%Q.
Proof. unfold Qltb. by rewrite negb_false_iff, Qle_bool_iff. Qed.

Lemma fold_max_by_first {A : Type} (key : A -> Q) l pre x mid :
  (forall y, In y pre -> (key y < key x)%Q) ->
  (forall y, In y mid -> (key y <= key x)%Q) ->
  let best := fold_left (fun best c => if Qltb (key best) (key c) then c else best) l x in
  exists pre' post',
    pre ++ x :: mid ++ l = pre' ++ best :: post'
    /\ (forall y, In y pre' -> (key y < key best)%Q)
    /\ (forall y, In y post' -> (key y <= key best)%Q).
Proof.
  revert pre x mid. induction l as [|z l IH]; intros pre x mid Hpre Hmid; cbn [fold_left].
  - exists pre, mid. by rewrite app_nil_r.
  - destruct (Qltb (key x) (key z)) eqn:Hlt.
    + apply Qltb_lt in Hlt.
      destruct (IH (pre ++ x :: mid) z []) as (pre' & post' & Heq & H1 & H2).
      * intros y [Hy|[<-|Hy]]%in_app_iff; [|done|].
        -- eapply Qlt_trans; [by apply Hpre | done].
        -- eapply Qle_lt_trans; [by apply Hmid | done].
      * done.
      * exists pre', post'. split; [|done].
        rewrite <- Heq. cbn [app]. by rewrite <- app_assoc.
    + apply Qltb_ge in Hlt.
      destruct (IH pre x (mid ++ [z])) as (pre' & post' & Heq & H1 & H2).
      * done.
      * intros y [Hy|[<-|[]]]%in_app_iff; [by apply Hmid | done].
      * exists pre', post'. split; [|done].
        rewrite <- Heq. by rewrite <- app_assoc.
Qed.

(** [max(l, key=key)] answers the first element of [l] whose key is maximal. *)
Lemma py_max_by_first {A : Type} (key : A -> Q) l x :
  py_max_by key l = Ok x ->
  exists pre post,
    l = pre ++ x :: post
    /\ (forall y, In y pre -> (key y < key x)%Q)
    /\ (forall y, In y post -> (key y <= key x)%Q).
Proof.
  destruct l as [|x0 l]; cbn [py_max_by]; [done|].
  intros [= <-].
  destruct (fold_max_by_first key l [] x0 []) as (pre & post & Heq & H1 & H2); [done..|].
  exists pre, post. split; [exact Heq | done].
Qed.

(** *** Acyclicity *)

Lemma well_ranked_tc cs x y :
  well_ranked cs -> tc (dep_edge cs) x y ->
  forall cx, In cx cs -> id cx = x ->
    exists cy, In cy cs /\ id cy = y /\ rank cy < rank cx.
Proof.
  intros [Hnd Hrk] Htc.
  induction Htc as [x y Hxy|x y z Hxy _ IH]; intros cx Hcx Hid.
  - destruct Hxy as (c & Hc & Hcid & Hy).
    assert (c = cx) as -> by (apply (id_unique cs); congruence).
    by apply Hrk.
  - destruct Hxy as (c & Hc & Hcid & Hy).
    assert (c = cx) as -> by (apply (id_unique cs); congruence).
    destruct (Hrk cx y Hcx Hy) as (cy & Hcy & Hcyid & Hlt).
    destruct (IH cy Hcy Hcyid) as (cz & Hcz & Hczid & Hlt').
    exists cz. repeat split; [done | done | lia].
Qed.

Lemma well_ranked_acyclic cs x : well_ranked cs -> ~ tc (dep_edge cs) x x.
Proof.
  intros Hwr Htc.
  assert (exists cx, In cx cs /\ id cx = x) as (cx & Hcx & Hid).
  { inversion Htc as [? ? (c & Hc & Hcid & _)|? ? ? (c & Hc & Hcid & _) _];
      subst; by exists c. }
  destruct (well_ranked_tc cs x x Hwr Htc cx Hcx Hid) as (cy & Hcy & Hcyid & Hlt).
  assert (cy = cx) as -> by (destruct Hwr; apply (id_unique cs); congruence).
  lia.
Qed.

(** *** Dependency lists hold no id twice *)

Lemma flat_map_singleton_if {A B : Type} (p : A -> bool) (f : A -> B) l :
  flat_map (fun x => if p x then [f x] else []) l = map f (List.filter p l).
Proof.
  induction l as [|x l IH]; cbn [flat_map List.filter]; [done|].
  destruct (p x); cbn [map app]; by rewrite IH.
Qed.

Lemma co_mention_edges_filter B S comp :
  co_mention_edges B S comp = map id (List.filter (co_mention_selects S comp) B).
Proof.
  unfold co_mention_edges. rewrite <- flat_map_singleton_if.
  apply flat_map_ext. intros other. unfold co_mention_selects.
  destruct (String.eqb _ _); cbn [negb andb]; [done|].
  destruct (existsb _ _); cbn [andb]; [|done].
  destruct (is_type (type comp) action && is_type (type other) entity);
    cbn [orb]; [done|].
  by destruct (is_type (type comp) action && is_type (type other) action
               && _is_sequential _ _).
Qed.

Lemma constraint_edges_filter B comp :
  constraint_edges B comp
  = if negb (is_type (type comp) constraint)
    then map id (List.filter (fun other => is_type (type other) constraint) B)
    else [].
Proof. unfold constraint_edges. by rewrite flat_map_singleton_if. Qed.

Lemma NoDup_map_filter {A B : Type} (f : A -> B) p l :
  NoDup (map f l) -> NoDup (map f (List.filter p l)).
Proof.
  induction l as [|x l IH]; cbn [map List.filter]; [done|].
  intros [Hx Hnd]%NoDup_cons. destruct (p x); [|by apply IH].
  cbn [map]. apply NoDup_cons. split; [|by apply IH].
  intros (y & Hy & [Hin _]%filter_In)%list_elem_of_In%in_map_iff.
  apply Hx, list_elem_of_In, in_map_iff. eauto.
Qed.

Lemma edges_NoDup B S comp :
  NoDup (map id B) ->
  NoDup (co_mention_edges B S comp ++ constraint_edges B comp).
Proof.
  intros Hnd. rewrite co_mention_edges_filter, constraint_edges_filter.
  destruct (negb _); [|rewrite app_nil_r; by apply NoDup_map_filter].
  apply NoDup_app. repeat split; [by apply NoDup_map_filter| |by apply NoDup_map_filter].
  intros x (a & <- & [Ha Hsel]%filter_In)%list_elem_of_In%in_map_iff
           (b & Heq & [Hb Hcon]%filter_In)%list_elem_of_In%in_map_iff.
  assert (b = a) as -> by by apply (id_unique B).
  apply is_type_true in Hcon. unfold co_mention_selects in Hsel.
  rewrite Hcon in Hsel. cbn in Hsel.
  by rewrite !andb_false_r in Hsel.
Qed.

Lemma inferred_dependencies_NoDup text cs c :
  In c (inferred_components text cs) -> NoDup (dependencies c).
Proof.
  unfold inferred_components, _detect_dependencies.
  intros (b & <- & Hb)%in_map_iff. cbn [dependencies set_dependencies].
  destruct (build_list_fresh _ _ _ _ Hb) as (-> & _). cbn [app].
  apply edges_NoDup, build_list_NoDup.
Qed.

Lemma inferred_dependencies_count text cs c x :
  In c (inferred_components text cs) ->
  count_occ String.string_dec (dependencies c) x <= 1.
Proof.
  intros Hc. revert x.
  by apply List.NoDup_count_occ, NoDup_ListNoDup, (inferred_dependencies_NoDup text cs).
Qed.

(** *** Score bounds *)

Lemma py_min_one x : (0 <= x)%Q -> (0 <= py_min x 1.0 /\ py_min x 1.0 <= 1)%Q.
Proof.
  intros Hx. unfold py_min. destruct (Qltb 1.0 x) eqn:Hlt.
  - split; by vm_compute.
  - apply Qltb_ge in Hlt. split; [done|].
    eapply Qle_trans; [exact Hlt | by vm_compute].
Qed.

Lemma Q_of_nat_nonneg n : (0 <= Q_of_nat n)%Q.
Proof. unfold Q_of_nat, Qle. cbn. lia. Qed.

Lemma py_div_nonneg a b : (0 <= py_div a b)%Q.
Proof.
  unfold py_div. apply Qmult_le_0_compat; [apply Q_of_nat_nonneg|].
  apply Qinv_le_0_compat, Q_of_nat_nonneg.
Qed.

Lemma coupling_of_bounds cs c :
  (0 <= score (coupling_of cs c) /\ score (coupling_of cs c) <= 1)%Q.
Proof. cbn [score coupling_of]. apply py_min_one, py_div_nonneg. Qed.

Lemma criticality_of_bounds cs c :
  (0 <= score (criticality_of cs c) /\ score (criticality_of cs c) <= 1)%Q.
Proof.
  unfold criticality_of. destruct (is_type _ _); cbn [score].
  - split; by vm_compute.
  - apply py_min_one.
    apply (Qle_trans _ (0.3 + 0)%Q); [by vm_compute|].
    apply Qplus_le_r, Qmult_le_0_compat; [apply Q_of_nat_nonneg | by vm_compute].
Qed.

(** *** Parallel groups *)

Lemma grow_group_spec cs comp l group processed group' processed' :
  fold_left (grow_step comp) l (group, processed) = (group', processed') ->
  (forall other, In other l -> In other cs) ->
  exists added, group' = group ++ added /\ forall x, In x added -> admitted cs comp x.
Proof.
  revert group processed. induction l as [|other l IH]; intros group processed Hf Hl.
  - injection Hf as <- <-. exists []. by rewrite app_nil_r.
  - cbn [fold_left grow_step] in Hf.
    assert (forall o, In o l -> In o cs) as Hl' by (intros; apply Hl; by right).
    destruct (bool_decide _); [by apply (IH _ _ Hf)|].
    destruct (has_dep_relation comp other) eqn:Hrel; cbn [negb] in Hf;
      [by apply (IH _ _ Hf)|].
    destruct (IH _ _ Hf Hl') as (added & -> & Hadded).
    exists (id other :: added). split; [by rewrite <- app_assoc|].
    intros x [<-|Hx]; [|by apply Hadded].
    exists other. split; [apply Hl; by left | done].
Qed.

Lemma parallel_fold_spec cs l groups processed :
  (forall c, In c l -> In c cs) ->
  (forall g, In g groups -> seeded_group cs g) ->
  forall g, In g (fst (fold_left (parallel_step cs) l (groups, processed))) ->
    seeded_group cs g.
Proof.
  revert groups processed. induction l as [|comp l IH]; intros groups processed Hl Hg;
    cbn [fold_left]; [done|].
  assert (forall c, In c l -> In c cs) as Hl' by (intros; apply Hl; by right).
  unfold parallel_step at 2. destruct (bool_decide _); [by apply IH|].
  destruct (grow_group cs comp ([id comp], {[id comp]} ∪ processed))
    as [group processed'] eqn:Hgrow.
  apply IH; [done|].
  destruct (grow_group_spec cs comp cs _ _ _ _ Hgrow) as (added & -> & Hadded); [done|].
  destruct (1 <? length ([id comp] ++ added))%nat eqn:Hlen; [|done].
  intros g [Hin|[<-|[]]]%in_app_iff; [by apply Hg|].
  exists comp, added. repeat split; [apply Hl; by left | | done].
  intros ->. by cbn in Hlen.
Qed.

Lemma find_parallelizable_seeded cs g :
  In g (_find_parallelizable cs) -> seeded_group cs g.
Proof. unfold _find_parallelizable. by apply parallel_fold_spec. Qed.

(** *** Noise *)

Lemma detect_noise_short text cs :
  (String.length text < 50)%nat ->
  exists n, _detect_noise text cs = Some n /\ noise_type n = "epistemic".
Proof.
  intros Hlen. unfold _detect_noise.
  apply Nat.ltb_lt in Hlen. rewrite Hlen. eauto.
Qed.

Lemma detect_noise_vague text cs :
  (50 <= String.length text)%nat ->
  existsb (fun term => contains term (lower text)) vague_terms = true ->
  exists n, _detect_noise text cs = Some n /\ noise_type n = "aleatory".
Proof.
  intros Hlen Hvague. unfold _detect_noise.
  apply Nat.ltb_ge in Hlen. rewrite Hlen, Hvague. eauto.
Qed.

Lemma filter_none {A : Type} (p : A -> bool) l :
  (forall x, In x l -> p x = false) -> List.filter p l = [].
Proof.
  induction l as [|x l IH]; intros Hp; [done|].
  cbn [List.filter]. rewrite Hp by (by left).
  apply IH. intros y Hy. apply Hp. by right.
Qed.

Lemma detect_noise_not_human text cs n :
  (forall c, In c cs -> Qltb (confidence (metadata c)) 0.5 = false) ->
  _detect_noise text cs = Some n -> noise_type n <> "human".
Proof.
  intros Hconf. unfold _detect_noise.
  destruct (_ <? _)%nat; [by intros [= <-]|].
  destruct (existsb _ vague_terms); [by intros [= <-]|].
  rewrite (filter_none _ cs Hconf).
  assert (Qltb (Q_of_nat (length cs) * 0.3) (Q_of_nat (@length Component [])) = false)
    as ->; [|done].
  apply Qltb_ge. apply Qmult_le_0_compat; [apply Q_of_nat_nonneg | by vm_compute].
Qed.

(** *** Main theorems *)

Lemma inferred_elem text cs c :
  In c (inferred_components text cs) ->
  exists b, In b (built_components text cs) /\ id c = id b /\ type c = type b
    /\ dependencies c
       = dependencies b
           ++ co_mention_edges (built_components text cs) (sentences_of text) b
           ++ constraint_edges (built_components text cs) b.
Proof.
  unfold inferred_components, _detect_dependencies.
  intros (b & <- & Hb)%in_map_iff. by exists b.
Qed.

Lemma inferred_elem_of text cs b :
  In b (built_components text cs) ->
  exists c, In c (inferred_components text cs) /\ id c = id b /\ type c = type b.
Proof.
  intros Hb. unfold inferred_components, _detect_dependencies.
  eexists. split; [by apply in_map|done].
Qed.

(** C2, as amended: after dependency inference no component's dependencies
    list holds the same component id twice. Each of the inference rules
    appends an id at most once, and the rules fire on disjoint kinds of
    target (entities and actions for co-mention, constraints for the global
    rule). *)
Theorem dependencies_hold_no_id_twice text cs c :
  In c (inferred_components text cs) ->
  NoDup (dependencies c)
  /\ forall x, count_occ String.string_dec (dependencies c) x <= 1.
Proof.
  intros Hc. split.
  - by apply (inferred_dependencies_NoDup text cs).
  - intros x. by apply (inferred_dependencies_count text cs).
Qed.

(** C3: the dependency graph of a run is acyclic. Every edge is of one of
    three kinds (to a constraint from a component that is not one, from an
    action to an entity, from an action to an action strictly earlier in the
    canonical sequence), hence goes to a component of strictly lower [rank],
    and no id reaches itself. With a recursion budget of 9 the max-depth
    computation returns, the critical-path computation returns on every
    non-empty collection, and [decompose] never exhausts its budget. *)
Theorem dependency_graph_acyclic_and_walks_terminate text cs :
  (forall c d, In c (analysed_components text cs) -> In d (dependencies c) ->
     exists k, In k (analysed_components text cs) /\ id k = d
               /\ ordered_edge c k /\ rank k < rank c)
  /\ (forall x, ~ tc (dep_edge (analysed_components text cs)) x x)
  /\ forall fuel, 9 <= fuel ->
       (exists d, _calculate_max_depth fuel (analysed_components text cs) = Ok d)
       /\ (analysed_components text cs <> [] ->
           exists p, _find_critical_path fuel (analysed_components text cs) = Ok p)
       /\ forall ctx, decompose fuel text ctx cs <> OutOfFuel.
Proof.
  pose proof (analysed_components_well_ranked text cs) as Hwr.
  split; [|split].
  - intros c d Hc Hd. unfold analysed_components in *.
    destruct (analyse_edges _ _ c d (build_list_fresh _ _ _) Hc Hd)
      as (k & Hk & Hid & Hedge).
    exists k. repeat split; [done..|].
    apply ordered_edge_rank; [|done].
    destruct (analyse_elem _ _ _ Hc) as (b & Hb & _ & -> & _).
    by destruct (build_list_fresh _ _ _ b Hb) as (_ & ? & _).
  - intros x. by apply well_ranked_acyclic.
  - intros fuel Hfuel.
    split; [by apply calculate_max_depth_total|].
    split; [by apply find_critical_path_total|].
    intros ctx.
    destruct (analysed_components text cs) as [|c l] eqn:HA.
    + by rewrite decompose_empty.
    + destruct (decompose_total fuel text ctx cs Hfuel) as [r ->]; [by rewrite HA|done].
Qed.

(** C4: on an input with a non-empty component collection the run returns,
    and its critical path is the reverse of the post-order depth-first walk
    from the first component of maximal criticality score: it starts with the
    root's id, has no repetition, and holds exactly the ids reachable from the
    root through dependency edges. *)
Theorem critical_path_is_reversed_walk_from_top_criticality fuel text ctx cs :
  9 <= fuel -> analysed_components text cs <> [] ->
  exists r pre root post rest n visited walk,
    decompose fuel text ctx cs = Ok r
    /\ components r = pre ++ root :: post
    /\ (forall c, In c pre -> (score (criticality c) < score (criticality root))%Q)
    /\ (forall c, In c post -> (score (criticality c) <= score (criticality root))%Q)
    /\ dfs fuel (components r) (∅, []) (id root) = Ok (n, (visited, walk))
    /\ critical_path r = rev walk
    /\ critical_path r = id root :: rest
    /\ NoDup (critical_path r)
    /\ forall x, In x (critical_path r) <-> rtc (dep_edge (components r)) (id root) x.
Proof.
  intros Hfuel Hne.
  destruct (decompose_total fuel text ctx cs Hfuel Hne) as [r Hr].
  destruct (decompose_inv _ _ _ _ _ Hr) as (Hcomps & _ & Hpath & _).
  destruct (find_critical_path_spec _ _ _ Hpath)
    as (root & n & V & walk & Hmax & Hdfs & Hrev & [rest Hrest] & Hnd & Hreach & _).
  destruct (py_max_by_first _ _ _ Hmax) as (pre & post & Hsplit & Hpre & Hpost).
  exists r, pre, root, post, rest, n, V, walk.
  rewrite Hcomps. repeat split; try done.
  - intros Hx. apply rtc_succ_of_dep_edge; [|by apply Hreach].
    apply analysed_components_well_ranked.
  - intros Hx. apply Hreach. apply rtc_succ_of_dep_edge; [|done].
    apply analysed_components_well_ranked.
Qed.

(** C5: after dependency inference every component that is not a constraint
    lists the id of every constraint component among its dependencies, whether
    or not a sentence mentions both; a constraint component has no
    dependencies at all. *)
Theorem non_constraints_depend_on_every_constraint text cs c :
  In c (inferred_components text cs) ->
  (type c <> constraint ->
   forall k, In k (inferred_components text cs) -> type k = constraint ->
     In (id k) (dependencies c))
  /\ (type c = constraint -> dependencies c = []).
Proof.
  intros (b & Hb & Hid & Ht & Hdeps)%inferred_elem.
  destruct (build_list_fresh _ _ _ _ Hb) as (Hfresh & _).
  rewrite Hdeps, Hfresh, Ht. cbn [app]. split.
  - intros Hnc k (bk & Hbk & Hkid & Hkt & _)%inferred_elem Hk.
    apply in_app_iff. right. apply constraint_edges_spec. split; [done|].
    exists bk. repeat split; [done | congruence | done].
  - intros Hcon.
    destruct (co_mention_edges _ _ b ++ constraint_edges _ b) as [|d ds] eqn:He; [done|].
    assert (In d (co_mention_edges (built_components text cs) (sentences_of text) b
                  ++ constraint_edges (built_components text cs) b)) as Hd
      by (rewrite He; by left).
    apply in_app_iff in Hd as [Hd|Hd].
    + apply co_mention_edges_spec in Hd as (_ & _ & _ & Hact & _). congruence.
    + by apply constraint_edges_spec in Hd as [Hnc _].
Qed.

(** C6: in the result of a run every component's final coupling score and
    criticality score lie in the closed interval from 0 to 1. *)
Theorem scores_within_unit_interval fuel text ctx cs r c :
  decompose fuel text ctx cs = Ok r -> In c (components r) ->
  (0 <= score (coupling c) /\ score (coupling c) <= 1)%Q
  /\ (0 <= score (criticality c) /\ score (criticality c) <= 1)%Q.
Proof.
  intros (Hcomps & _)%decompose_inv Hc. rewrite Hcomps in Hc.
  destruct (analyse_scores _ _ _ Hc) as (cs1 & c1 & cs2 & c2 & -> & ->).
  split; [apply coupling_of_bounds | apply criticality_of_bounds].
Qed.

(** C7: in the result of a run every id listed in a component's dependencies,
    in the critical path or in a parallelizable group is the id of a component
    of the result. *)
Theorem no_dangling_ids fuel text ctx cs r :
  decompose fuel text ctx cs = Ok r ->
  (forall c d, In c (components r) -> In d (dependencies c) ->
     In d (component_ids (components r)))
  /\ (forall x, In x (critical_path r) -> In x (component_ids (components r)))
  /\ (forall g x, In g (parallelizable r) -> In x g ->
        In x (component_ids (components r))).
Proof.
  intros (Hcomps & Hpar & Hpath & _)%decompose_inv.
  rewrite Hcomps, Hpar. unfold component_ids.
  pose proof (analysed_components_well_ranked text cs) as [Hnd Hrk].
  repeat split.
  - intros c d Hc Hd. destruct (Hrk c d Hc Hd) as (c' & Hc' & <- & _).
    by apply in_map.
  - intros x Hx.
    destruct (find_critical_path_spec _ _ _ Hpath)
      as (_ & _ & _ & _ & _ & _ & _ & _ & _ & _ & Hlook).
    destruct (Hlook x Hx) as (c & [Hc <-]%next_by_id_In). by apply in_map.
  - intros g x (comp & rest & Hcomp & -> & _ & Hadm)%find_parallelizable_seeded [<-|Hx].
    + by apply in_map.
    + destruct (Hadm x Hx) as (other & Hother & <- & _). by apply in_map.
Qed.

(** C9: the value of [decompose] does not depend on its [context] argument:
    on the same problem text and explicit constraints, any two contexts give
    the same outcome, in every field of the result. *)
Theorem context_does_not_influence_result fuel text cs
    (context1 context2 : option (gmap string string)) :
  decompose fuel text context1 cs = decompose fuel text context2 cs.
Proof. unfold decompose, DecompositionOperator_decompose. reflexivity. Qed.

(** C10: the noise descriptor of a result never has type human. Every
    component carries the confidence fixed for its kind (0.7 for an action,
    0.6 for an entity, 0.8 for a constraint), none below 0.5, so the list of
    low-confidence components is empty and cannot exceed 30% of the
    collection. *)
Theorem noise_is_never_human fuel text ctx cs r :
  decompose fuel text ctx cs = Ok r ->
  (forall c, In c (components r) ->
     (type c = action /\ confidence (metadata c) = 0.7%Q)
     \/ (type c = entity /\ confidence (metadata c) = 0.6%Q)
     \/ (type c = constraint /\ confidence (metadata c) = 0.8%Q))
  /\ List.filter (fun c => Qltb (confidence (metadata c)) 0.5) (components r) = []
  /\ forall n, noise_detected (result_metadata r) = Some n -> noise_type n <> "human".
Proof.
  intros (Hcomps & _ & _ & Hnoise & _)%decompose_inv.
  rewrite Hcomps, Hnoise.
  assert (forall c, In c (analysed_components text cs) ->
            (type c = action /\ confidence (metadata c) = 0.7%Q)
            \/ (type c = entity /\ confidence (metadata c) = 0.6%Q)
            \/ (type c = constraint /\ confidence (metadata c) = 0.8%Q)) as Htable.
  { intros c Hc. unfold analysed_components in Hc.
    destruct (analyse_elem _ _ _ Hc) as (b & Hb & _ & -> & _ & -> & _).
    unfold built_components in Hb.
    destruct (build_list_cases _ _ _ _ Hb)
      as [(cid & a & ->)|[(cid & e & ->)|(cid & k & ->)]]; cbn; tauto. }
  assert (forall c, In c (analysed_components text cs) ->
            Qltb (confidence (metadata c)) 0.5 = false) as Hconf.
  { intros c [[_ ->]|[[_ ->]|[_ ->]]]%Htable; done. }
  split; [done|]. split.
  - by apply filter_none.
  - intros n. by apply detect_noise_not_human.
Qed.

(** Where a run returns, its noise descriptor follows the priority order of
    [_detect_noise]: epistemic below 50 characters, else aleatory when a vague
    term occurs. *)
Lemma returned_noise_by_priority fuel text ctx cs r :
  decompose fuel text ctx cs = Ok r ->
  ((String.length text < 50)%nat ->
   exists n, noise_detected (result_metadata r) = Some n /\ noise_type n = "epistemic")
  /\ ((50 <= String.length text)%nat ->
      existsb (fun term => contains term (lower text)) vague_terms = true ->
      exists n, noise_detected (result_metadata r) = Some n /\ noise_type n = "aleatory").
Proof.
  intros (_ & _ & _ & -> & _)%decompose_inv.
  split; [apply detect_noise_short | apply detect_noise_vague].
Qed.

(** Passes 6 and 7 leave ids, kinds and dependencies as pass 5 set them. *)
Lemma result_keeps_inferred_dependencies fuel text ctx cs r :
  decompose fuel text ctx cs = Ok r ->
  map (fun c => (id c, type c, dependencies c)) (components r)
  = map (fun c => (id c, type c, dependencies c)) (inferred_components text cs).
Proof.
  intros (-> & _)%decompose_inv.
  unfold analysed_components, analyse, inferred_components,
    _calculate_criticality, _calculate_coupling.
  cbn [fst]. rewrite !map_map. by apply map_ext.
Qed.

(** X22: every parallelizable group of a result has at least two members,
    and each member after the first has no direct dependency edge, in either
    direction, with the first. *)
Lemma parallel_groups_are_seeded fuel text ctx cs r g :
  decompose fuel text ctx cs = Ok r -> In g (parallelizable r) ->
  2 <= length g /\ seeded_group (components r) g.
Proof.
  intros (-> & -> & _)%decompose_inv Hg.
  pose proof (find_parallelizable_seeded _ _ Hg) as Hs. split; [|done].
  destruct Hs as (comp & rest & _ & -> & Hne & _).
  destruct rest; [done | cbn; lia].
Qed.

(** No extracted component at all: [max] over the empty collection raises. *)
Lemma decompose_without_components fuel text ctx cs :
  _extract_actions text = [] -> _extract_entities text = [] ->
  _extract_constraints text cs = [] ->
  decompose fuel text ctx cs = Raise ValueError.
Proof.
  intros Ha He Hc. apply decompose_empty.
  unfold analysed_components, built_components. by rewrite Ha, He, Hc.
Qed.

(** *** Further properties of the pipeline *)

Lemma build_list_empty actions entities constraints :
  build_list actions entities constraints = [] <->
  actions = [] /\ entities = [] /\ constraints = [].
Proof.
  split.
  - intros H. apply (f_equal (@length Component)) in H.
    unfold build_list in H. rewrite !length_app, !build_from_length in H.
    cbn [length] in H.
    destruct actions; [|cbn in H; lia]. destruct constraints; [|cbn in H; lia].
    cbn [build_from paired_entities omap mem existsb negb] in H.
    destruct entities; [done|]. cbn in H. lia.
  - by intros (-> & -> & ->).
Qed.

Lemma analyse_length B text : length (analyse B text) = length B.
Proof.
  unfold analyse, _calculate_criticality, _calculate_coupling, _detect_dependencies.
  cbn [fst]. by rewrite !length_map.
Qed.

Lemma analysed_components_empty text cs :
  analysed_components text cs = [] <->
  _extract_actions text = [] /\ _extract_entities text = []
  /\ _extract_constraints text cs = [].
Proof.
  rewrite <- build_list_empty. unfold analysed_components. fold (built_components text cs).
  split; intros H.
  - apply (f_equal (@length Component)) in H. rewrite analyse_length in H.
    by destruct (built_components text cs).
  - unfold built_components in *. by rewrite H.
Qed.

(** X1: with a recursion budget of at least 9 a run has exactly two
    outcomes. When the text and the explicit constraints yield no action, no
    entity and no constraint it raises [ValueError]; otherwise it returns a
    result whose component collection and critical path are both non-empty.
    It never raises [StopIteration] and never exhausts the budget. *)
Theorem decompose_raises_exactly_without_extraction fuel text ctx cs :
  9 <= fuel ->
  (_extract_actions text = [] /\ _extract_entities text = []
   /\ _extract_constraints text cs = []
   /\ decompose fuel text ctx cs = Raise ValueError)
  \/ (~ (_extract_actions text = [] /\ _extract_entities text = []
         /\ _extract_constraints text cs = [])
      /\ exists r, decompose fuel text ctx cs = Ok r
                   /\ components r <> [] /\ critical_path r <> []).
Proof.
  intros Hfuel.
  destruct (analysed_components text cs) as [|c l] eqn:HA.
  - left. pose proof (proj1 (analysed_components_empty text cs) HA) as (Ha & He & Hc).
    repeat split; [done..|]. by apply decompose_empty.
  - right. split.
    + intros H%analysed_components_empty. congruence.
    + destruct (decompose_total fuel text ctx cs Hfuel) as [r Hr]; [by rewrite HA|].
      exists r. split; [done|].
      destruct (decompose_inv _ _ _ _ _ Hr) as (Hcomps & _ & Hpath & _).
      split; [by rewrite Hcomps, HA|].
      destruct (find_critical_path_spec _ _ _ Hpath)
        as (? & ? & ? & ? & _ & _ & _ & [rest ->] & _). done.
Qed.

Lemma analysed_components_ids text cs :
  map id (analysed_components text cs)
  = map comp_id (seq 0 (length (analysed_components text cs))).
Proof.
  unfold analysed_components. rewrite analyse_ids, analyse_length.
  apply build_list_ids.
Qed.

Lemma decompose_inv_metadata fuel text ctx cs r :
  decompose fuel text ctx cs = Ok r ->
  total_components (result_metadata r) = length (components r)
  /\ _estimate_complexity fuel (components r)
     = Ok (estimated_complexity (result_metadata r))
  /\ overall_confidence (result_metadata r)
     = _calculate_overall_confidence (components r).
Proof.
  unfold decompose, DecompositionOperator_decompose, _build_components, _calculate_coupling.
  fold (built_components text cs).
  change (_calculate_criticality
            (map (fun comp => set_coupling comp
                    (coupling_of (_detect_dependencies (built_components text cs) text) comp))
               (_detect_dependencies (built_components text cs) text)))
    with (analysed_components text cs).
  destruct (_find_critical_path fuel (analysed_components text cs)) as [p| |]; [|done|done].
  cbn [mbind outcome_bind].
  destruct (_calculate_max_depth fuel (analysed_components text cs)) as [d| |]; [|done|done].
  cbn [mbind outcome_bind].
  destruct (_estimate_complexity fuel (analysed_components text cs)) as [l| |] eqn:He;
    [|done|done].
  cbn [mbind outcome_bind].
  intros [= <-]. by cbn.
Qed.

(** X2: the components of a result carry the ids [comp_0], [comp_1], ... in
    collection order, so ids are pairwise distinct and the i-th component is
    the one named [comp_i]; the reported total is the length of the
    collection. *)
Theorem result_ids_are_consecutive fuel text ctx cs r :
  decompose fuel text ctx cs = Ok r ->
  component_ids (components r) = map comp_id (seq 0 (length (components r)))
  /\ NoDup (component_ids (components r))
  /\ total_components (result_metadata r) = length (components r).
Proof.
  intros Hr. destruct (decompose_inv _ _ _ _ _ Hr) as (Hcomps & _).
  destruct (decompose_inv_metadata _ _ _ _ _ Hr) as (Htotal & _).
  unfold component_ids. rewrite Hcomps. split; [apply analysed_components_ids|].
  split; [|by rewrite <- Hcomps].
  by destruct (analysed_components_well_ranked text cs).
Qed.

Lemma build_from_types {A : Type} (mk : string -> A -> Component) t n xs :
  (forall cid x, type (mk cid x) = t) ->
  map type (build_from mk n xs) = repeat t (length xs).
Proof.
  intros Hmk. revert n. induction xs as [|x xs IH]; intros n; cbn; [done|].
  by rewrite Hmk, IH.
Qed.

Lemma analyse_types B text : map type (analyse B text) = map type B.
Proof.
  unfold analyse, _calculate_criticality, _calculate_coupling, _detect_dependencies.
  cbn [fst]. rewrite !map_map. by apply map_ext.
Qed.

(** X3: the component collection of a result lists the action components
    first (one per extracted action), then the entity components (at most one
    per extracted entity), then the constraint components (one per
    constraint); no component has the kind [relationship]. *)
Theorem result_kinds_are_layered fuel text ctx cs r :
  decompose fuel text ctx cs = Ok r ->
  exists n_entities,
    map type (components r)
    = repeat action (length (_extract_actions text))
        ++ repeat entity n_entities
        ++ repeat constraint (length (_extract_constraints text cs))
    /\ n_entities <= length (_extract_entities text)
    /\ forall c, In c (components r) -> type c <> relationship.
Proof.
  intros (Hcomps & _)%decompose_inv. rewrite Hcomps.
  unfold analysed_components. rewrite analyse_types.
  unfold built_components, build_list.
  eexists. split; [|split].
  - rewrite !map_app.
    rewrite (build_from_types _ action), (build_from_types _ entity),
      (build_from_types _ constraint) by done.
    reflexivity.
  - apply filter_length_le.
  - intros c Hc. destruct (analyse_elem _ _ _ Hc) as (b & Hb & _ & -> & _).
    by destruct (build_list_fresh _ _ _ _ Hb) as (_ & ? & _).
Qed.

(** X4: the noise descriptor of a returned run is decided by the text alone:
    the epistemic descriptor below 50 characters, otherwise the aleatory one
    when a vague term occurs in the lower-cased text, otherwise none. *)
Theorem returned_noise_is_decided_by_text fuel text ctx cs r :
  decompose fuel text ctx cs = Ok r ->
  noise_detected (result_metadata r)
  = if (String.length text <? 50)%nat then
      Some {| noise_type := "epistemic";
              noise_description := "Problem description lacks detail and context" |}
    else if existsb (fun term => contains term (lower text)) vague_terms then
      Some {| noise_type := "aleatory";
              noise_description := "Problem contains uncertain or probabilistic elements" |}
    else None.
Proof.
  intros (_ & _ & _ & -> & _)%decompose_inv. unfold _detect_noise.
  destruct (_ <? _)%nat; [done|]. destruct (existsb _ vague_terms); [done|].
  rewrite filter_none.
  - assert (Qltb (Q_of_nat (length (analysed_components text cs)) * 0.3)
              (Q_of_nat (@length Component [])) = false) as ->; [|done].
    apply Qltb_ge. apply Qmult_le_0_compat; [apply Q_of_nat_nonneg | by vm_compute].
  - intros c Hc. unfold analysed_components in Hc.
    destruct (analyse_elem _ _ _ Hc) as (b & Hb & _ & _ & _ & -> & _).
    unfold built_components in Hb.
    by destruct (build_list_fresh _ _ _ _ Hb) as (_ & _ & ?).
Qed.

Lemma is_sequential_iff a b :
  _is_sequential a b = true <-> (0 <= sequence_index b < sequence_index a)%Z.
Proof.
  split; [apply is_sequential_order|].
  unfold _is_sequential. intros H.
  rewrite !andb_true_iff, !negb_true_iff, !Z.eqb_neq, Z.ltb_lt. lia.
Qed.

(** X5: the sequential-order heuristic is a strict order on descriptions: no
    description precedes itself, two descriptions never precede each other,
    and precedence is transitive. It holds exactly when both descriptions
    hold a canonical keyword and the second one's comes strictly earlier. *)
Theorem is_sequential_is_strict_order a b c :
  _is_sequential a a = false
  /\ (_is_sequential a b = true -> _is_sequential b a = false)
  /\ (_is_sequential a b = true -> _is_sequential b c = true ->
      _is_sequential a c = true)
  /\ (_is_sequential a b = true <->
      (0 <= sequence_index b < sequence_index a)%Z).
Proof.
  split; [|split; [|split]].
  - apply not_true_iff_false. rewrite is_sequential_iff. lia.
  - rewrite is_sequential_iff. intros H. apply not_true_iff_false.
    rewrite is_sequential_iff. lia.
  - rewrite !is_sequential_iff. lia.
  - apply is_sequential_iff.
Qed.


Lemma contains_empty_hay p : contains p "" = true -> p = "".
Proof. destruct p; [done|]. cbn. done. Qed.

Lemma preferred_nonempty a pref : In pref (dict_get common_pairs a) -> pref <> "".
Proof.
  unfold dict_get, common_pairs. cbn [find fst snd].
  repeat (destruct (String.eqb _ a);
          [cbn [In]; intros H Hp; subst pref; by repeat destruct H as [H|H]|]).
  by intros [].
Qed.

Lemma first_preferred_In preferred entities m :
  first_preferred preferred entities = Some m ->
  In m entities /\ exists p, In p preferred /\ contains p m = true.
Proof.
  induction preferred as [|p preferred IH]; cbn [first_preferred]; [done|].
  destruct (find (fun e => contains p e) entities) as [e|] eqn:Hf; cbn [truthy].
  - destruct (negb (String.eqb e "")).
    + intros [= <-]. apply find_some in Hf as [? ?]. split; [done|].
      exists p. split; [by left | done].
    + intros (? & q & ? & ?)%IH. split; [done|]. exists q. split; [by right | done].
  - intros (? & q & ? & ?)%IH. split; [done|]. exists q. split; [by right | done].
Qed.

Lemma first_preferred_hit preferred entities p e :
  (forall q, In q preferred -> q <> "") ->
  In p preferred -> In e entities -> contains p e = true ->
  exists m, first_preferred preferred entities = Some m.
Proof.
  intros Hne. induction preferred as [|q preferred IH]; intros Hp He Hpe; [done|].
  cbn [first_preferred].
  destruct (find (fun e => contains q e) entities) as [m|] eqn:Hf; cbn [truthy].
  - apply find_some in Hf as [_ Hqm].
    assert (m <> "") as Hm.
    { intros ->. apply contains_empty_hay in Hqm. apply (Hne q); [by left | done]. }
    apply String.eqb_neq in Hm. rewrite Hm. cbn [negb]. eauto.
  - destruct Hp as [->|Hp].
    + by rewrite (find_none _ _ Hf e He) in Hpe.
    + apply IH; [|done..]. intros; apply Hne; by right.
Qed.

(** X6: the entity paired with an action is always one of the given
    entities, and there is none only when no entity was given. Whenever some
    entity contains one of the substrings the preference table lists for the
    action, the entity chosen contains such a substring too: the fallback to
    the first entity is taken only when the table has no hit. *)
Theorem related_entity_is_a_given_entity a entities :
  (_find_related_entity a entities = None <-> entities = [])
  /\ (forall e, _find_related_entity a entities = Some e -> In e entities)
  /\ (forall p e, In p (dict_get common_pairs a) -> In e entities ->
        contains p e = true ->
        exists m q, _find_related_entity a entities = Some m
                    /\ In q (dict_get common_pairs a) /\ contains q m = true).
Proof.
  unfold _find_related_entity. split; [|split].
  - destruct (first_preferred _ entities) as [m|] eqn:Hf.
    + apply first_preferred_In in Hf as [Hm _]. split; [done | by intros ->].
    + by destruct entities.
  - intros e. destruct (first_preferred _ entities) as [m|] eqn:Hf.
    + intros [= <-]. by apply first_preferred_In in Hf as [? _].
    + destruct entities; [done|]. intros [= <-]. by left.
  - intros p e Hp He Hpe.
    destruct (first_preferred_hit _ entities p e (preferred_nonempty a) Hp He Hpe)
      as [m Hm].
    rewrite Hm. destruct (first_preferred_In _ _ _ Hm) as (_ & q & Hq & Hqm).
    by exists m, q.
Qed.

(** X7: the complexity label of a result is one of the four labels; a
    collection of more than 12 components, or a maximum depth above 6, is
    always labelled very high; the label low is only given to at most 3
    components with maximum depth at most 2. *)
Theorem complexity_label_thresholds fuel text ctx cs r :
  decompose fuel text ctx cs = Ok r ->
  let label := estimated_complexity (result_metadata r) in
  In label ["low"; "medium"; "high"; "very high"]
  /\ (12 < length (components r) -> label = "very high")
  /\ (6 < max_depth (result_metadata r) -> label = "very high")
  /\ (label = "low" ->
      length (components r) <= 3 /\ max_depth (result_metadata r) <= 2).
Proof.
  intros Hr label. subst label.
  destruct (decompose_inv _ _ _ _ _ Hr) as (Hcomps & _ & _ & _ & Hdepth).
  destruct (decompose_inv_metadata _ _ _ _ _ Hr) as (_ & Hlabel & _).
  rewrite Hcomps in *. unfold _estimate_complexity in Hlabel.
  rewrite Hdepth in Hlabel. cbn [mbind outcome_bind] in Hlabel.
  injection Hlabel as Hlabel. rewrite <- Hlabel.
  set (n := length (analysed_components text cs)).
  set (d := max_depth (result_metadata r)).
  destruct ((n <=? 3)%nat && Qltb _ 0.4 && (d <=? 2)%nat) eqn:C1.
  { apply andb_true_iff in C1 as [[Hn%Nat.leb_le _]%andb_true_iff Hd%Nat.leb_le].
    cbn [In]. split; [tauto|]. repeat split; intros; first [done | lia]. }
  destruct ((n <=? 7)%nat && Qltb _ 0.6 && (d <=? 4)%nat) eqn:C2.
  { apply andb_true_iff in C2 as [[Hn%Nat.leb_le _]%andb_true_iff Hd%Nat.leb_le].
    cbn [In]. split; [tauto|]. repeat split; intros; first [done | lia]. }
  destruct ((n <=? 12)%nat && Qltb _ 0.8 && (d <=? 6)%nat) eqn:C3.
  { apply andb_true_iff in C3 as [[Hn%Nat.leb_le _]%andb_true_iff Hd%Nat.leb_le].
    cbn [In]. split; [tauto|]. repeat split; intros; first [done | lia]. }
  cbn [In]. split; [tauto|]. repeat split; intros; done.
Qed.


(** The inner loop keeps the group duplicate-free, inside [processed], and
    outside what was processed before its seed. *)
Lemma grow_group_fresh comp l P0 group processed group' processed' :
  fold_left (grow_step comp) l (group, processed) = (group', processed') ->
  NoDup group -> (forall x, In x group -> x ∈ processed /\ x ∉ P0) ->
  P0 ⊆ processed ->
  NoDup group' /\ (forall x, In x group' -> x ∈ processed' /\ x ∉ P0)
  /\ P0 ⊆ processed'.
Proof.
  revert group processed. induction l as [|other l IH];
    intros group processed Hf Hnd Hg HP.
  - by injection Hf as <- <-.
  - cbn [fold_left grow_step] in Hf. case_bool_decide as Hin; [by apply (IH _ _ Hf)|].
    destruct (negb (has_dep_relation comp other)); [|by apply (IH _ _ Hf)].
    apply (IH _ _ Hf).
    + apply NoDup_app. repeat split; [done| |apply NoDup_singleton].
      intros x Hx%list_elem_of_In ->%list_elem_of_singleton.
      by destruct (Hg _ Hx).
    + intros x [Hx|[<-|[]]]%in_app_iff.
      * destruct (Hg x Hx). split; [|done]. apply elem_of_union. by right.
      * split; [apply elem_of_union; left; by apply elem_of_singleton|].
        intros Hx. apply Hin. by apply HP.
    + intros x Hx. apply elem_of_union. right. by apply HP.
Qed.

Lemma parallel_fold_disjoint cs l groups processed :
  NoDup (concat groups) -> (forall x, In x (concat groups) -> x ∈ processed) ->
  NoDup (concat (fst (fold_left (parallel_step cs) l (groups, processed)))).
Proof.
  revert groups processed. induction l as [|comp l IH]; intros groups processed Hnd Hin;
    cbn [fold_left]; [done|].
  unfold parallel_step at 2. case_bool_decide as Hseed; [by apply IH|].
  destruct (grow_group cs comp ([id comp], {[id comp]} ∪ processed))
    as [group processed'] eqn:Hgrow.
  destruct (grow_group_fresh comp cs processed _ _ _ _ Hgrow)
    as (Hg & Hfresh & Hsub).
  { apply NoDup_singleton. }
  { intros x [<-|[]]. split; [|done].
    apply elem_of_union. left. by apply elem_of_singleton. }
  { intros x Hx. apply elem_of_union. by right. }
  apply IH.
  - destruct (1 <? length group)%nat; [|done].
    rewrite concat_app. cbn [concat]. rewrite app_nil_r.
    apply NoDup_app. repeat split; [done| |done].
    intros x Hx%list_elem_of_In Hx'%list_elem_of_In.
    destruct (Hfresh x Hx') as [_ Hnot]. by apply Hnot, Hin.
  - intros x Hx. destruct (1 <? length group)%nat.
    + rewrite concat_app in Hx. cbn [concat] in Hx. rewrite app_nil_r in Hx.
      apply in_app_iff in Hx as [Hx|Hx]; [by apply Hsub, Hin | by apply Hfresh].
    + by apply Hsub, Hin.
Qed.

(** X8: the parallelizable groups of a result are pairwise disjoint and
    free of repetition: across all groups, every component id occurs at most
    once. *)
Theorem parallel_groups_share_no_id fuel text ctx cs r :
  decompose fuel text ctx cs = Ok r -> NoDup (concat (parallelizable r)).
Proof.
  intros (_ & -> & _)%decompose_inv. unfold _find_parallelizable.
  apply parallel_fold_disjoint; [constructor | by intros x []].
Qed.

(** The scores read only ids and dependency lists off the collection. *)
Lemma dependent_count_ext cs cs' c c' :
  map dependencies cs = map dependencies cs' -> id c = id c' ->
  dependent_count cs c = dependent_count cs' c'.
Proof.
  intros Hdeps Hid. unfold dependent_count. rewrite Hid. clear Hid.
  revert cs' Hdeps. induction cs as [|x cs IH]; intros [|x' cs'] Hdeps;
    try discriminate Hdeps; [done|].
  injection Hdeps as Hx Hdeps. cbn [List.filter]. rewrite Hx.
  destruct (mem _ _); cbn [length]; by rewrite (IH cs').
Qed.

Lemma analyse_dependencies B text :
  map dependencies (analyse B text) = map dependencies (_detect_dependencies B text).
Proof.
  unfold analyse, _calculate_criticality, _calculate_coupling.
  cbn [fst]. rewrite !map_map. by apply map_ext.
Qed.

Lemma coupling_of_ext cs cs' c c' :
  map dependencies cs = map dependencies cs' -> id c = id c' ->
  dependencies c = dependencies c' -> coupling_of cs c = coupling_of cs' c'.
Proof.
  intros Hdeps Hid Hc. unfold coupling_of, coupling_score.
  rewrite (dependent_count_ext cs cs' c c' Hdeps Hid), Hc.
  apply (f_equal (@length _)) in Hdeps. rewrite !length_map in Hdeps.
  by rewrite Hdeps.
Qed.

Lemma criticality_of_ext cs cs' c c' :
  map dependencies cs = map dependencies cs' -> id c = id c' ->
  type c = type c' -> criticality_of cs c = criticality_of cs' c'.
Proof.
  intros Hdeps Hid Ht. unfold criticality_of.
  by rewrite (dependent_count_ext cs cs' c c' Hdeps Hid), Ht.
Qed.

Lemma analyse_scores_final B text a :
  In a (analyse B text) ->
  coupling a = coupling_of (analyse B text) a
  /\ criticality a = criticality_of (analyse B text) a.
Proof.
  intros Ha. pose proof (analyse_dependencies B text) as Hdeps.
  unfold analyse, _calculate_criticality, _calculate_coupling in Ha, Hdeps |- *.
  cbn [fst] in Ha, Hdeps |- *.
  set (D := _detect_dependencies B text) in *.
  set (C := map (fun comp => set_coupling comp (coupling_of D comp)) D) in *.
  apply in_map_iff in Ha as (c & <- & Hc).
  apply in_map_iff in Hc as (d & <- & Hd).
  cbn [coupling criticality set_criticality set_coupling].
  split.
  - by apply coupling_of_ext.
  - apply criticality_of_ext; [|done..].
    rewrite Hdeps. unfold C. rewrite map_map. by apply map_ext.
Qed.

(** X9: the scores of a result describe the result's own dependency graph:
    every component's coupling and criticality records equal the scoring
    formulas evaluated on the final collection (its own dependency count, the
    number of components of the result that list its id, and the size of the
    collection). The default scores given at construction do not survive. *)
Theorem scores_describe_final_graph fuel text ctx cs r c :
  decompose fuel text ctx cs = Ok r -> In c (components r) ->
  coupling c = coupling_of (components r) c
  /\ criticality c = criticality_of (components r) c.
Proof.
  intros (-> & _)%decompose_inv Hc. unfold analysed_components in *.
  by apply analyse_scores_final.
Qed.


Lemma constraint_has_no_dependencies cs c :
  well_ranked cs -> In c cs -> type c = constraint -> dependencies c = [].
Proof.
  intros [_ Hrk] Hc Hcon.
  destruct (dependencies c) as [|d ds] eqn:Hdeps; [done|].
  destruct (Hrk c d Hc) as (c' & _ & _ & Hlt); [rewrite Hdeps; by left|].
  unfold rank in Hlt at 2. rewrite Hcon in Hlt. lia.
Qed.

Lemma py_min_le_left x y : (py_min x y <= x)%Q.
Proof.
  unfold py_min. destruct (Qltb y x) eqn:H; [|apply Qle_refl].
  by apply Qlt_le_weak, Qltb_lt.
Qed.

Lemma criticality_high_needs_dependents (n : nat) :
  (0.95 <= py_min (0.3 + Q_of_nat n * 0.15) 1.0)%Q -> 5 <= n.
Proof.
  intros H. pose proof (py_min_le_left (0.3 + Q_of_nat n * 0.15) 1.0) as H'.
  pose proof (Qle_trans _ _ _ H H') as Hle.
  unfold Qle, Qplus, Qmult, Q_of_nat, inject_Z in Hle. cbn in Hle. lia.
Qed.

(** X10: when a result holds a constraint component, its critical path is
    either the single id of a constraint component, or starts at a component
    that is not a constraint and that at least five components of the result
    depend on. *)
Theorem critical_path_under_constraints fuel text ctx cs r :
  decompose fuel text ctx cs = Ok r ->
  (exists k, In k (components r) /\ type k = constraint) ->
  (exists c, In c (components r) /\ type c = constraint /\ critical_path r = [id c])
  \/ (exists c rest, In c (components r) /\ type c <> constraint
        /\ critical_path r = id c :: rest
        /\ 5 <= dependent_count (components r) c).
Proof.
  intros Hr (k & Hk & Hkt).
  destruct (decompose_inv _ _ _ _ _ Hr) as (Hcomps & _ & Hpath & _).
  rewrite Hcomps in *.
  pose proof (analysed_components_well_ranked text cs) as Hwr.
  destruct (find_critical_path_spec _ _ _ Hpath)
    as (root & n & V & walk & Hmax & _ & _ & [rest Hrest] & Hnd & Hreach & _).
  pose proof (py_max_by_In _ _ _ Hmax) as Hroot.
  assert (score (criticality k) <= score (criticality root))%Q as Hle.
  { destruct (py_max_by_first _ _ _ Hmax) as (pre & post & Hsplit & Hpre & Hpost).
    rewrite Hsplit in Hk. apply in_app_iff in Hk as [Hk|[<-|Hk]].
    - by apply Qlt_le_weak, Hpre.
    - apply Qle_refl.
    - by apply Hpost. }
  unfold analysed_components in Hk, Hroot.
  destruct (analyse_scores_final _ _ _ Hk) as [_ Hck].
  destruct (analyse_scores_final _ _ _ Hroot) as [_ Hcr].
  fold (analysed_components text cs) in Hk, Hroot, Hck, Hcr.
  rewrite Hck, Hcr in Hle. unfold criticality_of in Hle.
  apply is_type_true in Hkt as Hkt'. rewrite Hkt' in Hle. cbn [score] in Hle.
  destruct (is_type (type root) constraint) eqn:Hrt.
  - left. apply is_type_true in Hrt. exists root. repeat split; [done..|].
    pose proof (constraint_has_no_dependencies _ _ Hwr Hroot Hrt) as Hdeps.
    assert (forall x, In x (critical_path r) -> x = id root) as Hall.
    { intros x Hx%Hreach. inversion Hx as [|? y ? (c & Hc & Hy) _]; [done|].
      destruct Hwr as [Hids _]. rewrite (next_by_id_ok _ _ Hids Hroot) in Hc.
      injection Hc as <-. by rewrite Hdeps in Hy. }
    rewrite Hrest in *. destruct rest as [|x rest]; [done|].
    apply NoDup_cons in Hnd as [Hnot _]. exfalso. apply Hnot.
    rewrite (Hall x); [by left | by right; left].
  - right. apply is_type_false in Hrt. cbn [score] in Hle.
    exists root, rest. repeat split; [done..|].
    by apply criticality_high_needs_dependents.
Qed.

Lemma build_from_In {A : Type} (mk : string -> A -> Component) n xs x :
  In x xs -> exists cid, In (mk cid x) (build_from mk n xs).
Proof.
  revert n. induction xs as [|y xs IH]; intros n; [done|].
  intros [->|Hx]; cbn [build_from].
  - eexists. by left.
  - destruct (IH (S n) Hx) as [cid Hc]. exists cid. by right.
Qed.

Lemma paired_entities_In cs e :
  In e (paired_entities cs) <->
  exists c, In c cs /\ after_first_space (description c) = Some e.
Proof.
  unfold paired_entities. rewrite <- list_elem_of_In, list_elem_of_omap.
  split; intros (c & Hc & He); exists c; by rewrite ?list_elem_of_In in *.
Qed.

Lemma mem_true_iff x l : mem x l = true <-> In x l.
Proof.
  unfold mem. rewrite existsb_exists. split.
  - by intros (y & Hy & ->%String.eqb_eq).
  - intros Hx. exists x. by rewrite String.eqb_refl.
Qed.

Lemma build_list_actions actions entities constraints b :
  In b (build_list actions entities constraints) -> type b = action ->
  In b (build_from (action_component entities) 0 actions).
Proof.
  unfold build_list. rewrite !in_app_iff.
  intros [H|[H|H]] Ht; [done| |]; apply build_from_elem in H as (cid & x & ->); done.
Qed.

(** X11: no extracted entity is lost, and none is counted twice. Every
    entity either is the text after the first space of an action component's
    description (it was paired with that action) or is the description of an
    entity component of its own, and never both. *)
Theorem entities_are_paired_or_standalone fuel text ctx cs r e :
  decompose fuel text ctx cs = Ok r -> In e (_extract_entities text) ->
  let paired :=
    exists c, In c (components r) /\ type c = action
              /\ after_first_space (description c) = Some e in
  let standalone :=
    exists c, In c (components r) /\ type c = entity /\ description c = e in
  (paired \/ standalone) /\ ~ (paired /\ standalone).
Proof.
  intros (Hcomps & _)%decompose_inv He paired standalone.
  subst paired standalone. rewrite Hcomps. unfold analysed_components.
  set (B := built_components text cs).
  set (acts := build_from (action_component (_extract_entities text)) 0
                 (_extract_actions text)).
  assert (forall c, In c (analyse B text) -> type c = action ->
                    exists b, In b acts /\ description b = description c) as Hact.
  { intros c (b & Hb & _ & Ht & Hd & _)%analyse_elem Hc. exists b. split; [|done].
    apply (build_list_actions _ _ (_extract_constraints text cs)); [done|congruence]. }
  split.
  - destruct (mem e (paired_entities acts)) eqn:Hm.
    + left. apply mem_true_iff, paired_entities_In in Hm as (b & Hb & Hsp).
      assert (In b B) as HbB by (apply in_app_iff; by left).
      destruct (analyse_elem_of B text b HbB) as (c & Hc & _ & Ht & Hd & _).
      exists c. split; [done|]. rewrite Ht, Hd. split; [|done].
      by apply build_from_elem in Hb as (cid & x & ->).
    + right.
      assert (In e (List.filter (fun e => negb (mem e (paired_entities acts)))
                      (_extract_entities text))) as Hu.
      { apply filter_In. split; [done|]. by rewrite Hm. }
      destruct (build_from_In entity_component (length acts) _ e Hu) as [cid Hb].
      assert (In (entity_component cid e) B) as HbB.
      { apply in_app_iff. right. apply in_app_iff. by left. }
      destruct (analyse_elem_of B text _ HbB) as (c & Hc & _ & Ht & Hd & _).
      exists c. by rewrite Ht, Hd.
  - intros [(c & Hc & Ht & Hsp) (c' & Hc' & Ht' & Hd')].
    destruct (Hact c Hc Ht) as (b & Hb & Hbd).
    assert (In e (paired_entities acts)) as Hp.
    { apply paired_entities_In. exists b. by rewrite Hbd. }
    destruct (analyse_elem _ _ _ Hc') as (b' & Hb' & _ & Hbt' & Hbd' & _).
    unfold B, built_components, build_list in Hb'. fold acts in Hb'.
    apply in_app_iff in Hb' as [Hb'|Hb'].
    { apply build_from_elem in Hb' as (cid & x & ->). cbn in Hbt'. congruence. }
    apply in_app_iff in Hb' as [Hb'|Hb'].
    + assert (In (description b')
                (List.filter (fun e => negb (mem e (paired_entities acts)))
                   (_extract_entities text))) as Hu.
      { clear -Hb'. revert Hb'. generalize (length acts).
        induction (List.filter _ _) as [|y ys IH]; intros n; [done|].
        cbn [build_from]. intros [<-|H]; [by left | right; by apply (IH (S n))]. }
      apply filter_In in Hu as [_ Hu]. rewrite <- Hbd', Hd' in Hu.
      apply mem_true_iff in Hp. by rewrite Hp in Hu.
    + apply build_from_elem in Hb' as (cid & x & ->). cbn in Hbt'. congruence.
Qed.


(** *** Sets and extraction *)

Lemma set_update_In s xs x : In x (set_update s xs) <-> In x s \/ In x xs.
Proof using Type.
  unfold set_update. revert s. induction xs as [|y xs IH]; intros s; cbn [fold_left In].
  - split; [by left | by intros [?|[]]].
  - rewrite IH. destruct (mem y s) eqn:Hm.
    + apply mem_true_iff in Hm. split; [intros [?|?]; [by left | right; by right]|].
      intros [?|[<-|?]]; [by left | by left | by right].
    + rewrite in_app_iff. cbn [In]. split.
      * intros [[?|[<-|[]]]|?]; [by left | right; by left | right; by right].
      * intros [?|[<-|?]]; [left; by left | left; right; by left | by right].
Qed.

Lemma set_update_NoDup s xs : NoDup s -> NoDup (set_update s xs).
Proof.
  unfold set_update. revert s. induction xs as [|y xs IH]; intros s Hs; cbn [fold_left];
    [done|].
  apply IH. destruct (mem y s) eqn:Hm; [done|].
  apply NoDup_app. repeat split; [done| |apply NoDup_singleton].
  intros x Hx%list_elem_of_In ->%list_elem_of_singleton.
  apply mem_true_iff in Hx. congruence.
Qed.

Lemma fold_set_update_In (f : regex -> list string) patterns init x :
  In x (fold_left (fun acc pattern => set_update acc (f pattern)) patterns init) <->
  In x init \/ exists pattern, In pattern patterns /\ In x (f pattern).
Proof using Type.
  revert init. induction patterns as [|p patterns IH]; intros init; cbn [fold_left In].
  - split; [by left | intros [?|(? & [] & _)]; done].
  - rewrite IH, set_update_In. split.
    + intros [[?|?]|(q & ? & ?)]; eauto.
    + intros [?|(q & [<-|?] & ?)]; eauto.
Qed.

Lemma fold_set_update_NoDup (f : regex -> list string) patterns init :
  NoDup init ->
  NoDup (fold_left (fun acc pattern => set_update acc (f pattern)) patterns init).
Proof.
  revert init. induction patterns as [|p patterns IH]; intros init Hi; cbn [fold_left];
    [done|].
  by apply IH, set_update_NoDup.
Qed.

Lemma iteration_order_In f l x : iteration_order f -> In x (f l) <-> In x l.
Proof.
  intros Hf. split; apply Permutation_in; [apply Hf | apply Permutation_sym, Hf].
Qed.

Lemma iteration_order_NoDup f l : iteration_order f -> NoDup l -> NoDup (f l).
Proof.
  intros Hf Hl. apply NoDup_ListNoDup.
  apply (Permutation_NoDup (Permutation_sym (Hf l))). by apply NoDup_ListNoDup.
Qed.

(** X12: whatever order the sets are listed in, a run given explicit
    constraints returns (with a recursion budget of at least 9), and its
    result holds, for every explicit constraint, a constraint component whose
    description is that constraint after the fixed prefix. *)
Theorem explicit_constraints_become_components fuel text ctx explicit e :
  iteration_order list_of_set -> 9 <= fuel -> In e explicit ->
  exists r c,
    decompose fuel text ctx (Some explicit) = Ok r
    /\ In c (components r) /\ type c = constraint
    /\ description c = "respect constraint: " +:+ e
    /\ extracted_from (metadata c) = "constraint: " +:+ e.
Proof.
  intros Hord Hfuel He.
  assert (In e (_extract_constraints text (Some explicit))) as Hin.
  { unfold _extract_constraints. apply (iteration_order_In _ _ _ Hord).
    apply fold_set_update_In. left.
    destruct explicit as [|e0 es]; [done|]. apply set_update_In. by right. }
  destruct (build_from_In constraint_component
              (length (build_from (action_component (_extract_entities text)) 0
                         (_extract_actions text))
               + length (build_from entity_component
                           (length (build_from
                                      (action_component (_extract_entities text)) 0
                                      (_extract_actions text)))
                           (List.filter
                              (fun e => negb (mem e (paired_entities
                                 (build_from (action_component (_extract_entities text))
                                    0 (_extract_actions text)))))
                              (_extract_entities text))))
              _ e Hin) as [cid Hb].
  assert (In (constraint_component cid e) (built_components text (Some explicit)))
    as HbB.
  { unfold built_components, build_list. apply in_app_iff. right.
    apply in_app_iff. by right. }
  destruct (analyse_elem_of _ text _ HbB) as (c & Hc & _ & Ht & Hd & Hm & _).
  fold (analysed_components text (Some explicit)) in Hc.
  destruct (decompose_total fuel text ctx (Some explicit) Hfuel) as [r Hr].
  { intros Hnil. by rewrite Hnil in Hc. }
  destruct (decompose_inv _ _ _ _ _ Hr) as (Hcomps & _).
  exists r, c. rewrite Hcomps, Ht, Hd, Hm. done.
Qed.









Lemma lower_idempotent s : lower (lower s) = lower s.
Proof.
  induction s as [|c s IH]; cbn [lower]; [done|]. rewrite IH. f_equal.
  unfold lower_char at 1. destruct (is_upper (lower_char c)) eqn:Hu; [|done].
  exfalso. unfold lower_char in Hu. destruct (is_upper c) eqn:Hc; [|congruence].
  unfold is_upper, between, code in *.
  rewrite nat_ascii_embedding in Hu; apply andb_true_iff in Hc as [?%Nat.leb_le ?%Nat.leb_le];
    [|lia].
  apply andb_true_iff in Hu as [?%Nat.leb_le ?%Nat.leb_le]. lia.
Qed.



(** X14: whatever order the sets are listed in, the extracted entities and
    the extracted constraints hold no string twice, and every extracted
    entity is in lower case. *)
Theorem extraction_has_set_semantics text cs :
  iteration_order list_of_set ->
  NoDup (_extract_entities text)
  /\ NoDup (_extract_constraints text cs)
  /\ forall e, In e (_extract_entities text) -> lower e = e.
Proof using Type.
  intros Hord. split; [|split].
  - unfold _extract_entities. apply iteration_order_NoDup; [done|].
    apply set_update_NoDup, set_update_NoDup. constructor.
  - unfold _extract_constraints. apply iteration_order_NoDup; [done|].
    apply (fold_set_update_NoDup (fun pattern => map lower (finditer true pattern text))).
    destruct cs as [[|e es]|]; [constructor | | constructor].
    apply set_update_NoDup. constructor.
  - intros e He. unfold _extract_entities in He.
    apply (proj1 (iteration_order_In _ _ _ Hord)) in He.
    apply set_update_In in He as [He|He].
    + apply set_update_In in He as [[]|He].
      apply in_map_iff in He as (x & <- & _). apply lower_idempotent.
    + apply in_map_iff in He as (x & <- & _). apply lower_idempotent.
Qed.


(** *** Confidence, constraints and warnings *)





Lemma dependent_count_constraint cs k :
  (forall c, In c cs -> type c <> constraint -> In (id k) (dependencies c)) ->
  (forall c, In c cs -> type c = constraint -> dependencies c = []) ->
  dependent_count cs k
  = length (List.filter (fun c => negb (is_type (type c) constraint)) cs).
Proof.
  intros Hnon Hcon. unfold dependent_count.
  induction cs as [|c cs IH]; [done|]. cbn [List.filter].
  assert (length (List.filter (fun c => mem (id k) (dependencies c)) cs)
          = length (List.filter (fun c => negb (is_type (type c) constraint)) cs))
    as IH'.
  { apply IH; intros c' Hc'; [apply Hnon | apply Hcon]; by right. }
  destruct (is_type (type c) constraint) eqn:Ht; cbn [negb].
  - apply is_type_true in Ht. rewrite (Hcon c); [done | by left | done].
  - apply is_type_false in Ht.
    assert (mem (id k) (dependencies c) = true) as ->.
    { apply mem_true_iff, Hnon; [by left | done]. }
    cbn [length]. by rewrite IH'.
Qed.

(** X16: in a result every constraint component has no dependencies, is
    depended on by exactly the components that are not constraints, and has
    the criticality score 0.95 with the reason fixed for constraints. *)
Theorem constraints_are_sinks_of_fixed_criticality fuel text ctx cs r k :
  decompose fuel text ctx cs = Ok r -> In k (components r) -> type k = constraint ->
  dependencies k = []
  /\ dependent_count (components r) k
     = length (List.filter (fun c => negb (is_type (type c) constraint)) (components r))
  /\ criticality k = {| score := 0.95; reason := "Constraint affects all work" |}.
Proof.
  intros (Hcomps & _)%decompose_inv Hk Hkt. rewrite Hcomps in *.
  pose proof (analysed_components_well_ranked text cs) as Hwr.
  split; [by apply (constraint_has_no_dependencies _ _ Hwr)|]. split.
  - apply dependent_count_constraint.
    + intros c Hc Hct. unfold analysed_components in Hc, Hk.
      destruct (analyse_elem _ _ _ Hc) as (b & Hb & _ & Hbt & _ & _ & Hdeps).
      destruct (analyse_elem _ _ _ Hk) as (bk & Hbk & Hkid & Hbkt & _).
      rewrite Hdeps, !in_app_iff. right. right.
      apply constraint_edges_spec. split; [congruence|].
      exists bk. repeat split; [done | congruence | done].
    + intros c Hc. by apply (constraint_has_no_dependencies _ _ Hwr).
  - unfold analysed_components in Hk.
    destruct (analyse_scores_final _ _ _ Hk) as [_ ->].
    unfold criticality_of. apply is_type_true in Hkt. by rewrite Hkt.
Qed.


(** *** Maximum depth *)

Lemma depth_of_S f cs cid :
  depth_of (S f) cs cid
  = match find (fun c => String.eqb (id c) cid) cs with
    | None => O
    | Some c =>
        match dependencies c with
        | [] => 1
        | _ :: _ => list_max (map (depth_of f cs) (dependencies c)) + 1
        end
    end.
Proof. cbn [depth_of]. destruct (find _ cs) as [c|]; [|done]. by destruct (dependencies c). Qed.

#[local] Opaque depth_of.

Lemma depth_of_stable cs :
  well_ranked cs ->
  forall f f' c, In c cs -> rank c < f -> rank c < f' ->
    depth_of f cs (id c) = depth_of f' cs (id c).
Proof.
  intros [Hnd Hrk]. induction f as [|f IH]; intros f' c Hc Hf Hf'; [lia|].
  destruct f' as [|f']; [lia|]. rewrite !depth_of_S.
  rewrite (find_by_id cs c Hnd Hc).
  destruct (dependencies c) as [|d ds] eqn:Hdeps; [done|].
  rewrite (map_ext_in (depth_of f cs) (depth_of f' cs) (d :: ds)); [done|].
  intros x Hx. rewrite <- Hdeps in Hx.
  destruct (Hrk c x Hc Hx) as (c' & Hc' & <- & Hlt). apply IH; [done | lia | lia].
Qed.

Lemma depth_of_unfold cs c :
  well_ranked cs -> In c cs ->
  depth_of 9 cs (id c)
  = match dependencies c with
    | [] => 1
    | _ :: _ => list_max (map (depth_of 9 cs) (dependencies c)) + 1
    end.
Proof.
  intros Hwr Hc. pose proof Hwr as [Hnd Hrk].
  rewrite (depth_of_S 8). rewrite (find_by_id cs c Hnd Hc).
  destruct (dependencies c) as [|d ds] eqn:Hdeps; [done|].
  rewrite (map_ext_in (depth_of 8 cs) (depth_of 9 cs) (d :: ds)); [done|].
  intros x Hx. rewrite <- Hdeps in Hx.
  destruct (Hrk c x Hc Hx) as (c' & Hc' & <- & Hlt).
  pose proof (rank_le c). apply (depth_of_stable cs Hwr); [done | lia | lia].
Qed.

Lemma traverse_get_depth_spec cs (f : gmap string nat -> string -> outcome (nat * gmap string nat)) l depths :
  (forall depths x, In x l -> memo_ok cs depths ->
     exists depths', f depths x = Ok (depth_of 9 cs x, depths') /\ memo_ok cs depths') ->
  memo_ok cs depths ->
  exists depths', traverse f l depths = Ok (map (depth_of 9 cs) l, depths')
                  /\ memo_ok cs depths'.
Proof.
  revert depths. induction l as [|x l IH]; intros depths Hf Hok.
  - by exists depths.
  - rewrite traverse_cons.
    destruct (Hf depths x) as (d1 & -> & Hok1); [by left | done |].
    cbn [mbind outcome_bind].
    destruct (IH d1) as (d2 & -> & Hok2); [intros; apply Hf; [by right | done] | done |].
    cbn [mbind outcome_bind]. by exists d2.
Qed.

Lemma memo_ok_insert cs depths k :
  memo_ok cs depths -> memo_ok cs (<[k := depth_of 9 cs k]> depths).
Proof.
  intros Hok k' d. destruct (decide (k = k')) as [->|Hne].
  - rewrite lookup_insert_eq. by intros [= <-].
  - rewrite lookup_insert_ne by done. apply Hok.
Qed.

Lemma get_depth_spec cs :
  well_ranked cs ->
  forall fuel depths c, In c cs -> rank c < fuel -> memo_ok cs depths ->
    exists depths',
      get_depth fuel cs depths (id c) = Ok (depth_of 9 cs (id c), depths')
      /\ memo_ok cs depths'.
Proof.
  intros Hwr. pose proof Hwr as [Hnd Hrk].
  induction fuel as [|fuel IH]; intros depths c Hc Hlt Hok; [lia|].
  cbn [get_depth]. destruct (depths !! id c) as [d|] eqn:Hmemo.
  - rewrite (Hok _ _ Hmemo). by exists depths.
  - rewrite (next_by_id_ok cs c Hnd Hc). cbn [mbind outcome_bind].
    pose proof (depth_of_unfold cs c Hwr Hc) as Hd.
    destruct (dependencies c) as [|x xs] eqn:Hdeps.
    + eexists. split; [by rewrite Hd|]. rewrite <- Hd. by apply memo_ok_insert.
    + destruct (traverse_get_depth_spec cs (get_depth fuel cs) (x :: xs) depths)
        as (depths1 & -> & Hok1); [|done|].
      { intros depths0 y Hy Hok0. rewrite <- Hdeps in Hy.
        destruct (Hrk c y Hc Hy) as (c' & Hc' & <- & Hlt'). apply IH; [done | lia | done]. }
      cbn [mbind outcome_bind map] in Hd |- *. rewrite <- Hd.
      eexists. split; [done|]. by apply memo_ok_insert.
Qed.

Lemma calculate_max_depth_spec cs fuel :
  well_ranked cs -> 9 <= fuel ->
  _calculate_max_depth fuel cs = Ok (max_or 1 (map (depth_of 9 cs) (map id cs))).
Proof.
  intros Hwr Hfuel. unfold _calculate_max_depth.
  destruct (traverse_get_depth_spec cs (get_depth fuel cs) (map id cs) ∅)
    as (depths' & -> & _); [| |done].
  - intros depths x (c & <- & Hc)%in_map_iff Hok.
    apply get_depth_spec; [done | done | | done]. pose proof (rank_le c). lia.
  - intros k d. by rewrite lookup_empty.
Qed.

Lemma list_max_ge l x : In x l -> x <= list_max l.
Proof.
  intros Hx. pose proof (proj1 (list_max_le l (list_max l)) (le_n _)) as Hall.
  by apply (proj1 (List.Forall_forall _ _) Hall).
Qed.

Lemma list_max_In l : l <> [] -> In (list_max l) l.
Proof.
  induction l as [|x l IH]; [done|]. intros _. cbn [list_max fold_right].
  destruct l as [|y l].
  - left. cbn. lia.
  - destruct (Nat.max_spec x (list_max (y :: l))) as [[_ Hm]|[_ Hm]];
      fold (list_max (y :: l)); rewrite Hm; [right; by apply IH | by left].
Qed.

Lemma depth_of_pos cs c : well_ranked cs -> In c cs -> 1 <= depth_of 9 cs (id c).
Proof.
  intros Hwr Hc. rewrite (depth_of_unfold cs c Hwr Hc).
  destruct (dependencies c); lia.
Qed.

Lemma depth_of_edge cs c d :
  well_ranked cs -> In c cs -> In d (dependencies c) ->
  depth_of 9 cs d < depth_of 9 cs (id c).
Proof.
  intros Hwr Hc Hd. rewrite (depth_of_unfold cs c Hwr Hc).
  destruct (dependencies c) as [|x xs] eqn:Hdeps; [done|].
  pose proof (list_max_ge (map (depth_of 9 cs) (x :: xs)) (depth_of 9 cs d)
                (in_map _ _ _ Hd)). lia.
Qed.

Lemma chain_head cs x l : chain cs (x :: l) -> exists c, In c cs /\ id c = x.
Proof.
  destruct l as [|y l]; cbn [chain]; [done|].
  intros [(c & Hc & Hid & _) _]. eauto.
Qed.

Lemma chain_length_le cs :
  well_ranked cs ->
  forall l x, chain cs (x :: l) -> length (x :: l) <= depth_of 9 cs x.
Proof.
  intros Hwr. induction l as [|y l IH]; intros x Hch.
  - destruct Hch as (c & Hc & <-). by apply depth_of_pos.
  - destruct Hch as [(c & Hc & <- & Hy) Hch].
    pose proof (IH y Hch). pose proof (depth_of_edge cs c y Hwr Hc Hy).
    cbn [length] in *. lia.
Qed.

Lemma chain_exists cs :
  well_ranked cs ->
  forall n c, In c cs -> depth_of 9 cs (id c) = n ->
    exists l, chain cs (id c :: l) /\ length (id c :: l) = n.
Proof.
  intros Hwr. pose proof Hwr as [Hnd Hrk].
  induction n as [|n IH]; intros c Hc Hn.
  - pose proof (depth_of_pos cs c Hwr Hc). lia.
  - rewrite (depth_of_unfold cs c Hwr Hc) in Hn.
    destruct (dependencies c) as [|x xs] eqn:Hdeps.
    + exists []. split; [by exists c | exact Hn].
    + destruct (proj1 (in_map_iff _ _ _)
                  (list_max_In (map (depth_of 9 cs) (x :: xs)) ltac:(done)))
        as (d & Hd & Hdin).
      rewrite <- Hdeps in Hdin.
      destruct (Hrk c d Hc Hdin) as (c' & Hc' & <- & _).
      destruct (IH c' Hc') as (l & Hch & Hlen); [lia|].
      exists (id c' :: l). split; [|cbn [length] in *; lia].
      split; [by exists c | done].
Qed.

Lemma max_depth_longest_chain cs fuel d :
  well_ranked cs -> 9 <= fuel -> cs <> [] ->
  _calculate_max_depth fuel cs = Ok d ->
  (exists l, chain cs l /\ length l = d)
  /\ forall l, chain cs l -> length l <= d.
Proof.
  intros Hwr Hfuel Hne. rewrite (calculate_max_depth_spec cs fuel Hwr Hfuel).
  intros [= <-].
  assert (map (depth_of 9 cs) (map id cs) <> []) as Hne' by by destruct cs.
  assert (max_or 1 (map (depth_of 9 cs) (map id cs))
          = list_max (map (depth_of 9 cs) (map id cs))) as ->.
  { by destruct (map _ (map id cs)). }
  split.
  - destruct (proj1 (in_map_iff _ _ _) (list_max_In _ Hne')) as (x & Hx & Hin).
    apply in_map_iff in Hin as (c & <- & Hc).
    destruct (chain_exists cs Hwr _ c Hc eq_refl) as (l & Hch & Hlen).
    exists (id c :: l). split; [done | congruence].
  - intros [|x l] Hch; [cbn; lia|].
    pose proof (chain_length_le cs Hwr l x Hch) as Hle.
    destruct (chain_head cs x l Hch) as (c & Hc & <-).
    pose proof (list_max_ge (map (depth_of 9 cs) (map id cs)) (depth_of 9 cs (id c))
                  (in_map _ _ _ (in_map _ _ _ Hc))). lia.
Qed.

(** X17: the maximum depth reported by a result is the number of components
    on a longest dependency chain of the result: some chain of components,
    each depending directly on the next, has exactly that many members, and no
    chain has more. The memo of [get_depth] does not change the depths. *)
Theorem max_depth_is_longest_chain fuel text ctx cs r :
  9 <= fuel -> decompose fuel text ctx cs = Ok r ->
  (exists l, chain (components r) l /\ length l = max_depth (result_metadata r))
  /\ (forall l, chain (components r) l -> length l <= max_depth (result_metadata r))
  /\ 1 <= max_depth (result_metadata r).
Proof.
  intros Hfuel Hr.
  destruct (decompose_inv _ _ _ _ _ Hr) as (Hcomps & _ & Hpath & _ & Hdepth).
  pose proof (analysed_components_well_ranked text cs) as Hwr.
  rewrite Hcomps.
  assert (analysed_components text cs <> []) as Hne.
  { intros Hnil. rewrite Hnil in Hpath. discriminate Hpath. }
  destruct (max_depth_longest_chain _ fuel _ Hwr Hfuel Hne Hdepth) as [Hex Hall].
  split; [done|]. split; [done|].
  destruct (analysed_components text cs) as [|c l] eqn:HA; [done|].
  apply (Hall [id c]). exists c. split; [by left | done].
Qed.


(** *** The critical path as an order of work *)

Lemma rank_of_id cs c : NoDup (map id cs) -> In c cs -> rank_of cs (id c) = rank c.
Proof. intros Hnd Hc. unfold rank_of. by rewrite find_by_id. Qed.

Lemma rank_of_next cs x c : next_by_id cs x = Ok c -> rank_of cs x = rank c.
Proof.
  unfold next_by_id, rank_of. destruct (find _ cs); [|done]. by intros [= ->].
Qed.

Lemma traverse_dfs_follow cs fuel :
  (forall V P v d V' P',
      dfs fuel cs (V, P) v = Ok (d, (V', P')) ->
      dependencies_follow cs (rev P) -> open_above cs V P [v] ->
      dependencies_follow cs (rev P')) ->
  forall ws V P ds V' P',
    traverse (dfs fuel cs) ws (V, P) = Ok (ds, (V', P')) ->
    dependencies_follow cs (rev P) -> open_above cs V P ws ->
    dependencies_follow cs (rev P').
Proof.
  intros IH. induction ws as [|w ws IHws]; intros V P ds V' P' Ht Hfol Hopen.
  - by injection Ht as <- <- <-.
  - rewrite traverse_cons in Ht.
    destruct (dfs fuel cs (V, P) w) as [[y [V1 P1]]| |] eqn:Hw; [|done|done].
    cbn [mbind outcome_bind] in Ht.
    destruct (traverse (dfs fuel cs) ws (V1, P1)) as [[ys [V2 P2]]| |] eqn:Hws;
      [|done|done].
    cbn [mbind outcome_bind] in Ht. injection Ht as <- <- <-.
    destruct (dfs_walked _ _ _ _ _ _ _ _ Hw) as (L1 & (HP1 & _ & HV1 & _) & _).
    apply (IHws _ _ _ _ _ Hws).
    + apply (IH _ _ _ _ _ _ Hw Hfol).
      intros s Hs. destruct (Hopen s Hs) as [?|Hlt]; [by left|].
      right. intros w' [<-|[]]. apply Hlt. by left.
    + intros s [Hs|Hs]%HV1.
      * destruct (Hopen s Hs) as [?|Hlt].
        -- left. rewrite HP1. apply in_app_iff. by left.
        -- right. intros w' Hw'. apply Hlt. by right.
      * left. rewrite HP1. apply in_app_iff. by right.
Qed.

Lemma dfs_follow cs fuel :
  well_ranked cs ->
  forall V P v d V' P',
    dfs fuel cs (V, P) v = Ok (d, (V', P')) ->
    dependencies_follow cs (rev P) -> open_above cs V P [v] ->
    dependencies_follow cs (rev P').
Proof.
  intros [Hnd Hrk]. induction fuel as [|fuel IH]; intros V P v d V' P'; [done|].
  cbn [dfs]. case_bool_decide as Hv; [by intros [= <- <- <-]|].
  destruct (next_by_id cs v) as [comp| |] eqn:Hcomp; [|done|done].
  cbn [mbind outcome_bind].
  pose proof (next_by_id_In _ _ _ Hcomp) as [Hc Hid].
  assert (forall y, dep_edge cs v y -> In y (dependencies comp)) as Hedge.
  { intros y (c & Hc' & Hcid & Hy).
    assert (c = comp) as -> by (apply (id_unique cs); congruence). done. }
  assert (forall y, In y (dependencies comp) -> rank_of cs y < rank_of cs v) as Hlow.
  { intros y Hy. destruct (Hrk comp y Hc Hy) as (c' & Hc' & <- & Hlt).
    by rewrite (rank_of_id cs c' Hnd Hc'), (rank_of_next _ _ _ Hcomp). }
  destruct (dependencies comp) as [|w ws] eqn:Hdeps.
  - intros [= <- <- <-] Hfol _. rewrite rev_app_distr. cbn [rev app dependencies_follow].
    split; [|done]. intros y Hy%Hedge. done.
  - destruct (traverse (dfs fuel cs) (w :: ws) ({[v]} ∪ V, P))
      as [[depths [V1 P1]]| |] eqn:Ht; [|done|done].
    cbn [mbind outcome_bind]. intros [= <- <- <-] Hfol Hopen.
    destruct (traverse_dfs_walked cs fuel (dfs_walked cs fuel) _ _ _ _ _ _ Ht)
      as (L & (HP & _ & HV & _) & Hall).
    assert (open_above cs ({[v]} ∪ V) P (w :: ws)) as Hopen'.
    { intros s [->%elem_of_singleton|Hs]%elem_of_union.
      - right. apply Hlow.
      - destruct (Hopen s Hs) as [?|Hlt]; [by left|]. right. intros w' Hw'.
        specialize (Hlt v ltac:(by left)). specialize (Hlow w' Hw'). lia. }
    rewrite rev_app_distr. cbn [rev app dependencies_follow]. split.
    + intros y Hy%Hedge. apply in_rev. rewrite rev_involutive.
      pose proof (Hlow y Hy) as Hylt.
      apply Hall, HV in Hy as [[->%elem_of_singleton|Hy]%elem_of_union|Hy].
      * lia.
      * destruct (Hopen y Hy) as [?|Hlt].
        -- rewrite HP. apply in_app_iff. by left.
        -- specialize (Hlt v ltac:(by left)). lia.
      * rewrite HP. apply in_app_iff. by right.
    + by apply (traverse_dfs_follow cs fuel IH _ _ _ _ _ _ Ht).
Qed.

(** X18: the critical path of a result is an order in which work can be
    checked off from the back: every id on the path has all of its direct
    dependencies later on the path. *)
Theorem critical_path_lists_dependencies_later fuel text ctx cs r :
  decompose fuel text ctx cs = Ok r ->
  dependencies_follow (components r) (critical_path r).
Proof.
  intros (-> & _ & Hpath & _)%decompose_inv.
  pose proof (analysed_components_well_ranked text cs) as Hwr.
  unfold _find_critical_path in Hpath.
  destruct (py_max_by _ _) as [start| |]; [|done|done].
  cbn [mbind outcome_bind] in Hpath.
  destruct (dfs fuel _ (∅, []) (id start)) as [[n [V walk]]| |] eqn:Hdfs; [|done|done].
  cbn [mbind outcome_bind] in Hpath. injection Hpath as <-.
  apply (dfs_follow _ fuel Hwr _ _ _ _ _ _ Hdfs); [done|].
  intros s Hs. by apply not_elem_of_empty in Hs.
Qed.


(** *** The dependency graph and the warnings, exactly *)

Lemma co_mention_selects_spec S comp other :
  co_mention_selects S comp other = true <->
  id comp <> id other
  /\ (exists s, In s S /\ mentions comp s = true /\ mentions other s = true)
  /\ type comp = action
  /\ (type other = entity
      \/ (type other = action
          /\ _is_sequential (description comp) (description other) = true)).
Proof.
  unfold co_mention_selects.
  rewrite !andb_true_iff, orb_true_iff, !andb_true_iff, negb_true_iff,
    String.eqb_neq, existsb_exists, !is_type_true.
  split.
  - intros ((Hid & s & [Hs Hc]%filter_In & Hk) & Hkind).
    split; [done|]. split; [by exists s|]. tauto.
  - intros (Hid & (s & Hs & Hc & Hk) & Hact & Hkind).
    split; [|tauto]. split; [done|]. exists s. split; [|done]. by apply filter_In.
Qed.

(** X19: the dependency lists of a result are exactly what the two
    inference rules say. A component lists another's id if and only if
    either it is not a constraint and the other is, or it is an action, some
    sentence of the text mentions both descriptions, and the other is an
    entity or an action that the sequential-order heuristic places before
    it. *)
Theorem dependencies_are_exactly_the_inferred_edges fuel text ctx cs r c k :
  decompose fuel text ctx cs = Ok r -> In c (components r) -> In k (components r) ->
  In (id k) (dependencies c) <->
  (type c <> constraint /\ type k = constraint)
  \/ (type c = action /\ co_mentioned text c k
      /\ (type k = entity
          \/ (type k = action
              /\ _is_sequential (description c) (description k) = true))).
Proof.
  intros (Hcomps & _)%decompose_inv Hc Hk. rewrite Hcomps in *.
  pose proof (analysed_components_well_ranked text cs) as [Hnd _].
  unfold analysed_components in Hc, Hk.
  destruct (analyse_elem _ _ _ Hc) as (b & Hb & Hcid & Hct & Hcd & _ & Hdeps).
  destruct (analyse_elem _ _ _ Hk) as (bk & Hbk & Hkid & Hkt & Hkd & _).
  assert (NoDup (map id (built_components text cs))) as HndB by apply build_list_NoDup.
  destruct (build_list_fresh _ _ _ _ Hb) as (Hfresh & _).
  rewrite Hdeps, Hfresh. cbn [app]. rewrite in_app_iff.
  rewrite co_mention_edges_filter, constraint_edges_spec.
  unfold co_mentioned, mentions. rewrite Hct, Hkt, Hcd, Hkd, Hkid.
  split.
  - intros [(o & Ho & [Hin Hsel]%filter_In)%in_map_iff|(Hnc & o & Ho & Hot & Hid)].
    + assert (o = bk) as -> by by apply (id_unique _ _ _ HndB).
      apply co_mention_selects_spec in Hsel as (_ & Hs & Hact & Hkind).
      right. done.
    + assert (o = bk) as -> by by apply (id_unique _ _ _ HndB).
      left. done.
  - intros [[Hnc Hcon]|(Hact & Hs & Hkind)].
    + right. split; [done|]. by exists bk.
    + left. apply in_map_iff. exists bk. split; [done|].
      apply filter_In. split; [done|].
      apply co_mention_selects_spec. repeat split; [|done..].
      intros Heq.
      assert (b = bk) as -> by by apply (id_unique _ _ _ HndB).
      destruct Hkind as [He|[_ Hseq]]; [congruence|].
      apply is_sequential_order in Hseq. lia.
Qed.




(** *** Components left out of every group *)

Lemma has_dep_relation_sym c k : has_dep_relation c k = has_dep_relation k c.
Proof. unfold has_dep_relation. apply orb_comm. Qed.

Lemma grow_group_prefix comp l group processed group' processed' :
  fold_left (grow_step comp) l (group, processed) = (group', processed') ->
  exists added, group' = group ++ added.
Proof.
  revert group processed. induction l as [|other l IH]; intros group processed Hf.
  - injection Hf as <- <-. exists []. by rewrite app_nil_r.
  - cbn [fold_left grow_step] in Hf.
    destruct (bool_decide _); [by apply (IH _ _ Hf)|].
    destruct (negb _); [|by apply (IH _ _ Hf)].
    destruct (IH _ _ Hf) as (added & ->).
    exists (id other :: added). by rewrite <- app_assoc.
Qed.

Lemma grow_group_covers comp l group processed group' processed' :
  fold_left (grow_step comp) l (group, processed) = (group', processed') ->
  processed ⊆ processed'
  /\ (forall other, In other l ->
        id other ∈ processed' \/ has_dep_relation comp other = true)
  /\ (forall x, x ∈ processed' -> x ∈ processed \/ In x group').
Proof.
  revert group processed. induction l as [|other l IH]; intros group processed Hf.
  - injection Hf as <- <-. repeat split; [done | by intros ? [] | by left].
  - cbn [fold_left grow_step] in Hf. case_bool_decide as Hin.
    + destruct (IH _ _ Hf) as (Hsub & Hcov & Hnew). repeat split; [done| |done].
      intros o [<-|Ho]; [left; by apply Hsub | by apply Hcov].
    + destruct (has_dep_relation comp other) eqn:Hrel; cbn [negb] in Hf.
      * destruct (IH _ _ Hf) as (Hsub & Hcov & Hnew). repeat split; [done| |done].
        intros o [<-|Ho]; [by right | by apply Hcov].
      * destruct (IH _ _ Hf) as (Hsub & Hcov & Hnew).
        destruct (grow_group_prefix _ _ _ _ _ _ Hf) as (added & Hg).
        repeat split.
        -- intros x Hx. apply Hsub, elem_of_union. by right.
        -- intros o [<-|Ho]; [|by apply Hcov].
           left. apply Hsub, elem_of_union. left. by apply elem_of_singleton.
        -- intros x [[->%elem_of_singleton|Hx]%elem_of_union|Hx]%Hnew;
             [|by left|by right].
           right. rewrite Hg. apply in_app_iff. left. apply in_app_iff. right. by left.
Qed.

Lemma parallel_fold_leftover cs l groups processed seeds groups' processed' :
  leftover_invariant cs groups processed seeds ->
  (forall c, In c l -> In c cs) ->
  fold_left (parallel_step cs) l (groups, processed) = (groups', processed') ->
  exists seeds',
    leftover_invariant cs groups' processed' seeds'
    /\ processed ⊆ processed'
    /\ forall c, In c l -> id c ∈ processed'.
Proof.
  revert groups processed seeds.
  induction l as [|comp l IH]; intros groups processed seeds Hinv Hl Hf;
    cbn [fold_left] in Hf.
  { injection Hf as <- <-. exists seeds. split; [done|]. split; [done|]. by intros ? []. }
  assert (forall c, In c l -> In c cs) as Hl' by (intros; apply Hl; by right).
  unfold parallel_step at 2 in Hf. case_bool_decide as Hseed.
  { destruct (IH _ _ _ Hinv Hl' Hf) as (seeds' & Hinv' & Hsub & Hall).
    exists seeds'. split; [done|]. split; [done|].
    intros c [<-|Hc]; [by apply Hsub | by apply Hall]. }
  destruct (grow_group cs comp ([id comp], {[id comp]} ∪ processed))
    as [group processed1] eqn:Hgrow.
  destruct (grow_group_covers _ _ _ _ _ _ Hgrow) as (Hsub1 & Hcov & Hnew).
  destruct (grow_group_prefix _ _ _ _ _ _ Hgrow) as (added & Hg).
  destruct Hinv as (Ha & Hb & Hd).
  assert (id comp ∈ processed1) as Hcomp.
  { apply Hsub1, elem_of_union. left. by apply elem_of_singleton. }
  assert (processed ⊆ processed1) as Hsub0.
  { intros x Hx. apply Hsub1, elem_of_union. by right. }
  assert (exists groups1 seeds1,
            fold_left (parallel_step cs) l (groups1, processed1) = (groups', processed')
            /\ leftover_invariant cs groups1 processed1 seeds1) as (groups1 & seeds1 & Hf1 & Hinv1).
  { destruct (1 <? length group)%nat eqn:Hlen.
    - exists (groups ++ [group]), seeds. split; [done|]. split; [|split].
      + intros s Hs. destruct (Ha s Hs) as [Hin Hrel]. split; [done|].
        intros other Ho. destruct (Hrel other Ho) as [?|?]; [left; by apply Hsub0 | by right].
      + intros x Hx. destruct (Hnew x Hx) as [Hx'|Hx'].
        * apply elem_of_union in Hx' as [Hx'|Hx'].
          -- apply elem_of_singleton in Hx' as ->.
             left. rewrite concat_app, in_app_iff. right. cbn [concat].
             rewrite app_nil_r, Hg. by left.
          -- destruct (Hb x Hx') as [?|?]; [|by right].
             left. rewrite concat_app, in_app_iff. by left.
        * left. rewrite concat_app, in_app_iff. right. cbn [concat].
          by rewrite app_nil_r.
      + done.
    - assert (group = [id comp]) as Hgroup.
      { rewrite Hg in Hlen |- *. apply Nat.ltb_ge in Hlen.
        destruct added; [done | cbn in Hlen; lia]. }
      rewrite Hgroup in Hnew.
      exists groups, (comp :: seeds). split; [done|]. split; [|split].
      + intros s [<-|Hs].
        * split; [apply Hl; by left | by apply Hcov].
        * destruct (Ha s Hs) as [Hin Hrel]. split; [done|].
          intros other Ho. destruct (Hrel other Ho) as [?|?]; [left; by apply Hsub0 | by right].
      + intros x Hx. destruct (Hnew x Hx) as [Hx'|Hx'].
        * apply elem_of_union in Hx' as [Hx'|Hx'].
          -- apply elem_of_singleton in Hx' as ->.
             right. exists comp. split; [by left | done].
          -- destruct (Hb x Hx') as [?|(s & Hs & <-)]; [by left|].
             right. exists s. split; [by right | done].
        * destruct (in_inv Hx') as [<-|[]]. right. exists comp. split; [by left | done].
      + intros s1 s2 [<-|H1] [<-|H2] Hne; [done | | | by apply Hd].
        * rewrite has_dep_relation_sym. destruct (Ha s2 H2) as [Hs2 Hrel].
          destruct (Hrel comp) as [Hin|?]; [apply Hl; by left | done | done].
        * destruct (Ha s1 H1) as [Hs1 Hrel].
          destruct (Hrel comp) as [Hin|?]; [apply Hl; by left | done | done]. }
  destruct (IH _ _ _ Hinv1 Hl' Hf1) as (seeds' & Hinv' & Hsub & Hall).
  exists seeds'. split; [done|]. split.
  - intros x Hx. by apply Hsub, Hsub0.
  - intros c [<-|Hc]; [by apply Hsub | by apply Hall].
Qed.

(** X21: the grouping leaves out only components that depend on one
    another: any two distinct components of a result that occur in no
    parallelizable group are joined by a direct dependency edge, in one
    direction or the other. *)
Theorem ungrouped_components_are_related fuel text ctx cs r c k :
  decompose fuel text ctx cs = Ok r ->
  In c (components r) -> In k (components r) -> id c <> id k ->
  ~ In (id c) (concat (parallelizable r)) ->
  ~ In (id k) (concat (parallelizable r)) ->
  In (id k) (dependencies c) \/ In (id c) (dependencies k).
Proof.
  intros (Hcomps & Hpar & _)%decompose_inv Hc Hk Hne Hcg Hkg.
  rewrite Hcomps, Hpar in *. clear Hcomps Hpar.
  pose proof (analysed_components_well_ranked text cs) as [Hnd _].
  set (A := analysed_components text cs) in *.
  unfold _find_parallelizable in Hcg, Hkg.
  destruct (fold_left (parallel_step A) A ([], ∅)) as [groups processed] eqn:Hf.
  cbn [fst] in Hcg, Hkg.
  destruct (parallel_fold_leftover A A [] ∅ [] groups processed)
    as (seeds & (Ha & Hb & Hd) & _ & Hall); [|done|done|].
  { split; [by intros ? []|]. split; [|by intros ? ? []].
    intros x Hx. by apply not_elem_of_empty in Hx. }
  destruct (Hb (id c) (Hall c Hc)) as [?|(s1 & Hs1 & Hid1)]; [done|].
  destruct (Hb (id k) (Hall k Hk)) as [?|(s2 & Hs2 & Hid2)]; [done|].
  assert (s1 = c) as -> by (apply (id_unique A); [done | by apply Ha | done..]).
  assert (s2 = k) as -> by (apply (id_unique A); [done | by apply Ha | done..]).
  pose proof (Hd c k Hs1 Hs2 Hne) as Hrel.
  unfold has_dep_relation in Hrel.
  apply orb_true_iff in Hrel as [?%mem_true_iff|?%mem_true_iff]; tauto.
Qed.

End DecompositionOperator.

(** ** Concrete runs *)

Import PyStr.

Definition run (text : string) : outcome DecompositionResult :=
  decompose insertion_order format_2f_exact 0 9 text None None.

Definition result_of (text : string) : DecompositionResult :=
  match run text with
  | Ok r => r
  | _ => empty_result
  end.

Definition constraint_result : DecompositionResult := result_of constraint_text.

Lemma mem_In x l : mem x l = true -> In x l.
Proof.
  unfold mem. intros (y & Hy & ->%String.eqb_eq)%existsb_exists. done.
Qed.

Lemma groups_hold_dependent_pair_spec cs :
  groups_hold_dependent_pair cs = true ->
  exists g a b,
    In g (_find_parallelizable cs) /\ In a g /\ In b g /\ dep_edge cs a b.
Proof.
  unfold groups_hold_dependent_pair, dependent_pair_in_group, has_edge.
  intros (g & Hg & (a & Ha & (b & Hb & (c & Hc & Hedge)%existsb_exists)
            %existsb_exists)%existsb_exists)%existsb_exists.
  apply andb_true_iff in Hedge as [Hid%String.eqb_eq Hdep%mem_In].
  exists g, a, b. repeat split; [done..|]. by exists c.
Qed.

Lemma permutation_3_cases {A : Type} (a b c : A) l :
  Permutation l [a; b; c] ->
  In l [[a; b; c]; [b; a; c]; [b; c; a]; [a; c; b]; [c; a; b]; [c; b; a]].
Proof.
  intros (k1 & k2 & -> & H)%Permutation_cons_inv_r.
  apply Permutation_length_2_inv in H as [H|H];
    destruct k1 as [|x [|y [|z k1]]]; simplify_eq/=; tauto.
Qed.

Lemma permutation_nil_eq {A : Type} (l : list A) : Permutation l [] -> l = [].
Proof. intros H. by apply Permutation_nil, Permutation_sym. Qed.

(** Whatever the iteration order of the sets, the components of
    [parallel_text] are built from one of these extractions. *)
Lemma parallel_text_extraction list_of_set format_2f :
  (forall l, Permutation (list_of_set l) l) ->
  exists actions entities,
    In actions [["build"; "configure"]; ["configure"; "build"]]
    /\ In entities [["server"; "cache"; "queue"]; ["cache"; "server"; "queue"];
                    ["cache"; "queue"; "server"]; ["server"; "queue"; "cache"];
                    ["queue"; "server"; "cache"]; ["queue"; "cache"; "server"]]
    /\ analysed_components list_of_set format_2f parallel_text None
       = analyse format_2f (build_list actions entities []) parallel_text.
Proof.
  intros Hperm.
  exists (list_of_set ["build"; "configure"]), (list_of_set ["server"; "cache"; "queue"]).
  split; [|split].
  - destruct (Permutation_length_2_inv (Permutation_sym (Hperm ["build"; "configure"])))
      as [->| ->]; cbn; tauto.
  - apply permutation_3_cases, Hperm.
  - unfold analysed_components, built_components.
    change (_extract_actions list_of_set parallel_text)
      with (list_of_set ["build"; "configure"]).
    change (_extract_entities list_of_set parallel_text)
      with (list_of_set ["server"; "cache"; "queue"]).
    change (_extract_constraints list_of_set parallel_text None)
      with (list_of_set []).
    by rewrite (permutation_nil_eq _ (Hperm [])).
Qed.

(** C1, at the input [parallel_text]: under every iteration order of the sets
    the run returns a parallelizable group holding two component ids joined by
    a direct dependency edge. The group is seeded by the first action; the
    second action and the entity it depends on are both unrelated to the seed,
    so both are admitted, although one depends on the other. *)
Theorem parallel_group_holds_dependent_pair list_of_set format_2f duration :
  (forall l, Permutation (list_of_set l) l) ->
  exists r g a b,
    decompose list_of_set format_2f duration 9 parallel_text None None = Ok r
    /\ In g (parallelizable r) /\ In a g /\ In b g
    /\ dep_edge (components r) a b.
Proof.
  intros Hperm.
  destruct (parallel_text_extraction list_of_set format_2f Hperm)
    as (actions & entities & Hactions & Hentities & HA).
  assert (groups_hold_dependent_pair
            (analysed_components list_of_set format_2f parallel_text None) = true
          /\ analysed_components list_of_set format_2f parallel_text None <> [])
    as [Hpair Hne].
  { rewrite HA. cbn [In] in Hactions, Hentities.
    destruct Hactions as [<-|[<-|[]]];
      destruct Hentities as [<-|[<-|[<-|[<-|[<-|[<-|[]]]]]]];
      (split; [vm_compute; reflexivity | vm_compute; discriminate]). }
  destruct (decompose_total list_of_set format_2f duration 9 parallel_text None None)
    as [r Hr]; [lia | done |].
  destruct (decompose_inv _ _ _ _ _ _ _ _ Hr) as (Hcomps & Hpar & _).
  destruct (groups_hold_dependent_pair_spec _ Hpair) as (g & a & b & Hg & Ha & Hb & He).
  exists r, g, a, b. rewrite Hcomps, Hpar. done.
Qed.

Lemma parallel_group_holds_dependent_pair_witness :
  exists r g a b,
    decompose insertion_order format_2f_exact 0 9 parallel_text None None = Ok r
    /\ In g (parallelizable r) /\ In a g /\ In b g
    /\ dep_edge (components r) a b.
Proof.
  apply (parallel_group_holds_dependent_pair insertion_order format_2f_exact 0).
  intros l. unfold insertion_order. reflexivity.
Defined.

(** The same run, evaluated: the one retained group lists both actions and
    the entity the second action depends on. *)
Example parallel_text_groups :
  exists r,
    run parallel_text = Ok r
    /\ parallelizable r = [["comp_0"; "comp_1"; "comp_3"]]
    /\ map dependencies (components r) = [["comp_2"]; ["comp_3"]; []; []].
Proof. eexists. split; [vm_compute; reflexivity|]. split; reflexivity. Qed.

(** C8, at the empty problem text (and at a sixty-character text with vague
    terms): no component is extracted, and the run raises [ValueError] from
    [max] over the empty collection in [_find_critical_path], before the noise
    is classified. No result, hence no noise descriptor, is produced. *)
Theorem decompose_raises_without_components list_of_set format_2f duration fuel ctx :
  (forall l, Permutation (list_of_set l) l) ->
  (String.length "" < 50)%nat
  /\ decompose list_of_set format_2f duration fuel "" ctx None = Raise ValueError
  /\ (50 <= String.length vague_text)%nat
  /\ existsb (fun term => contains term (lower vague_text)) vague_terms = true
  /\ decompose list_of_set format_2f duration fuel vague_text ctx None = Raise ValueError.
Proof.
  intros Hperm. pose proof (permutation_nil_eq _ (Hperm [])) as Hnil.
  split; [cbn; lia|]. split; [by apply decompose_without_components|].
  split; [vm_compute; lia|]. split; [by vm_compute|].
  by apply decompose_without_components.
Qed.

Lemma decompose_raises_without_components_witness :
  run "" = Raise ValueError /\ run vague_text = Raise ValueError.
Proof.
  destruct (decompose_raises_without_components
              insertion_order format_2f_exact 0 9 None)
    as (_ & H1 & _ & _ & H2).
  - intros l. unfold insertion_order. reflexivity.
  - split; [exact H1 | exact H2].
Defined.

(** C2 as stated fails: under no iteration order, for no problem text and
    no explicit constraints, does dependency inference leave a component
    whose dependencies list repeats an id. *)
Lemma no_input_yields_duplicate_edges :
  ~ exists list_of_set text cs c x,
      In c (inferred_components list_of_set text cs)
      /\ 1 < count_occ String.string_dec (dependencies c) x.
Proof.
  intros (list_of_set & text & cs & c & x & Hc & Hdup).
  pose proof (inferred_dependencies_count list_of_set text cs c x Hc). lia.
Qed.

Lemma dependencies_hold_no_id_twice_witness :
  let c := nth_component (inferred_components insertion_order constraint_text None) 0 in
  NoDup (dependencies c)
  /\ forall x, count_occ String.string_dec (dependencies c) x <= 1.
Proof.
  apply (dependencies_hold_no_id_twice insertion_order constraint_text None).
  vm_compute. left. reflexivity.
Defined.

Example constraint_text_dependencies :
  map dependencies (inferred_components insertion_order constraint_text None)
  = [["comp_1"; "comp_2"; "comp_3"; "comp_4"]; ["comp_2"; "comp_3"; "comp_4"];
     []; []; []].
Proof. vm_compute. reflexivity. Qed.

Lemma critical_path_is_reversed_walk_from_top_criticality_witness :
  exists r pre root post rest n visited walk,
    run pipeline_text = Ok r
    /\ components r = pre ++ root :: post
    /\ (forall c, In c pre -> (score (criticality c) < score (criticality root))%Q)
    /\ (forall c, In c post -> (score (criticality c) <= score (criticality root))%Q)
    /\ dfs 9 (components r) (∅, []) (id root) = Ok (n, (visited, walk))
    /\ critical_path r = rev walk
    /\ critical_path r = id root :: rest
    /\ NoDup (critical_path r)
    /\ forall x, In x (critical_path r) <-> rtc (dep_edge (components r)) (id root) x.
Proof.
  apply (critical_path_is_reversed_walk_from_top_criticality
           insertion_order format_2f_exact 0 9 pipeline_text None None).
  - lia.
  - vm_compute. discriminate.
Defined.

(** On [pipeline_text] the root is the action the two later actions depend
    on; the path continues with the entity it depends on and leaves out the
    two actions, which the root does not reach. *)
Example pipeline_text_critical_path :
  map (fun c => (id c, description c, dependencies c)) (components (result_of pipeline_text))
  = [("comp_0", "build server", ["comp_3"]); ("comp_1", "test server", ["comp_0"]);
     ("comp_2", "deploy server", ["comp_0"]); ("comp_3", "cache", [])]
  /\ critical_path (result_of pipeline_text) = ["comp_0"; "comp_3"]
  /\ max_depth (result_metadata (result_of pipeline_text)) = 3.
Proof. split; [|split]; vm_compute; reflexivity. Qed.

Example constraint_text_result :
  critical_path constraint_result = ["comp_2"]
  /\ parallelizable constraint_result = [["comp_2"; "comp_3"; "comp_4"]]
  /\ max_depth (result_metadata constraint_result) = 3
  /\ noise_detected (result_metadata constraint_result) = None.
Proof. split; [|split; [|split]]; vm_compute; reflexivity. Qed.

Lemma non_constraints_depend_on_every_constraint_witness :
  let cs := inferred_components insertion_order constraint_text None in
  (type (nth_component cs 0) <> constraint ->
   forall k, In k cs -> type k = constraint ->
     In (id k) (dependencies (nth_component cs 0)))
  /\ (type (nth_component cs 0) = constraint -> dependencies (nth_component cs 0) = []).
Proof.
  apply (non_constraints_depend_on_every_constraint insertion_order constraint_text None).
  vm_compute. left. reflexivity.
Defined.

Lemma scores_within_unit_interval_witness :
  let c := nth_component (components constraint_result) 0 in
  (0 <= score (coupling c) /\ score (coupling c) <= 1)%Q
  /\ (0 <= score (criticality c) /\ score (criticality c) <= 1)%Q.
Proof.
  apply (scores_within_unit_interval insertion_order format_2f_exact 0 9
           constraint_text None None constraint_result).
  - vm_compute. reflexivity.
  - vm_compute. left. reflexivity.
Defined.

Lemma no_dangling_ids_witness :
  (forall c d, In c (components constraint_result) -> In d (dependencies c) ->
     In d (component_ids (components constraint_result)))
  /\ (forall x, In x (critical_path constraint_result) ->
        In x (component_ids (components constraint_result)))
  /\ (forall g x, In g (parallelizable constraint_result) -> In x g ->
        In x (component_ids (components constraint_result))).
Proof.
  apply (no_dangling_ids insertion_order format_2f_exact 0 9 constraint_text None None).
  vm_compute. reflexivity.
Defined.

Lemma noise_is_never_human_witness :
  (forall c, In c (components constraint_result) ->
     (type c = action /\ confidence (metadata c) = 0.7%Q)
     \/ (type c = entity /\ confidence (metadata c) = 0.6%Q)
     \/ (type c = constraint /\ confidence (metadata c) = 0.8%Q))
  /\ List.filter (fun c => Qltb (confidence (metadata c)) 0.5)
       (components constraint_result) = []
  /\ forall n, noise_detected (result_metadata constraint_result) = Some n ->
       noise_type n <> "human".
Proof.
  apply (noise_is_never_human insertion_order format_2f_exact 0 9
           constraint_text None None).
  vm_compute. reflexivity.
Defined.

(** ** The further properties, at concrete runs *)

Lemma insertion_order_is_iteration_order : iteration_order insertion_order.
Proof. intros l. unfold insertion_order. reflexivity. Defined.

Lemma decompose_raises_exactly_without_extraction_witness :
  (_extract_actions insertion_order pipeline_text = []
   /\ _extract_entities insertion_order pipeline_text = []
   /\ _extract_constraints insertion_order pipeline_text None = []
   /\ run pipeline_text = Raise ValueError)
  \/ (~ (_extract_actions insertion_order pipeline_text = []
         /\ _extract_entities insertion_order pipeline_text = []
         /\ _extract_constraints insertion_order pipeline_text None = [])
      /\ exists r, run pipeline_text = Ok r
                   /\ components r <> [] /\ critical_path r <> []).
Proof.
  apply (decompose_raises_exactly_without_extraction
           insertion_order format_2f_exact 0 9 pipeline_text None None).
  lia.
Defined.

Lemma result_ids_are_consecutive_witness :
  component_ids (components constraint_result)
  = map comp_id (seq 0 (length (components constraint_result)))
  /\ NoDup (component_ids (components constraint_result))
  /\ total_components (result_metadata constraint_result)
     = length (components constraint_result).
Proof.
  apply (result_ids_are_consecutive insertion_order format_2f_exact 0 9
           constraint_text None None constraint_result).
  vm_compute. reflexivity.
Defined.

Lemma result_kinds_are_layered_witness :
  exists n_entities,
    map type (components constraint_result)
    = repeat action (length (_extract_actions insertion_order constraint_text))
        ++ repeat entity n_entities
        ++ repeat constraint
             (length (_extract_constraints insertion_order constraint_text None))
    /\ n_entities <= length (_extract_entities insertion_order constraint_text)
    /\ forall c, In c (components constraint_result) -> type c <> relationship.
Proof.
  apply (result_kinds_are_layered insertion_order format_2f_exact 0 9
           constraint_text None None constraint_result).
  vm_compute. reflexivity.
Defined.

Lemma returned_noise_is_decided_by_text_witness :
  noise_detected (result_metadata constraint_result)
  = if (String.length constraint_text <? 50)%nat then
      Some {| noise_type := "epistemic";
              noise_description := "Problem description lacks detail and context" |}
    else if existsb (fun term => contains term (lower constraint_text)) vague_terms then
      Some {| noise_type := "aleatory";
              noise_description := "Problem contains uncertain or probabilistic elements" |}
    else None.
Proof.
  apply (returned_noise_is_decided_by_text insertion_order format_2f_exact 0 9
           constraint_text None None constraint_result).
  vm_compute. reflexivity.
Defined.

Lemma complexity_label_thresholds_witness :
  let label := estimated_complexity (result_metadata constraint_result) in
  In label ["low"; "medium"; "high"; "very high"]
  /\ (12 < length (components constraint_result) -> label = "very high")
  /\ (6 < max_depth (result_metadata constraint_result) -> label = "very high")
  /\ (label = "low" ->
      length (components constraint_result) <= 3
      /\ max_depth (result_metadata constraint_result) <= 2).
Proof.
  apply (complexity_label_thresholds insertion_order format_2f_exact 0 9
           constraint_text None None constraint_result).
  vm_compute. reflexivity.
Defined.

Lemma parallel_groups_share_no_id_witness :
  NoDup (concat (parallelizable constraint_result)).
Proof.
  apply (parallel_groups_share_no_id insertion_order format_2f_exact 0 9
           constraint_text None None constraint_result).
  vm_compute. reflexivity.
Defined.

Lemma scores_describe_final_graph_witness :
  let c := nth_component (components constraint_result) 0 in
  coupling c = coupling_of (components constraint_result) c
  /\ criticality c = criticality_of (components constraint_result) c.
Proof.
  apply (scores_describe_final_graph insertion_order format_2f_exact 0 9
           constraint_text None None constraint_result).
  - vm_compute. reflexivity.
  - vm_compute. left. reflexivity.
Defined.

Lemma critical_path_under_constraints_witness :
  (exists c, In c (components constraint_result) /\ type c = constraint
             /\ critical_path constraint_result = [id c])
  \/ (exists c rest, In c (components constraint_result) /\ type c <> constraint
        /\ critical_path constraint_result = id c :: rest
        /\ 5 <= dependent_count (components constraint_result) c).
Proof.
  apply (critical_path_under_constraints insertion_order format_2f_exact 0 9
           constraint_text None None constraint_result).
  - vm_compute. reflexivity.
  - exists (nth_component (components constraint_result) 2).
    split; vm_compute; [right; right; left|]; reflexivity.
Defined.

Lemma entities_are_paired_or_standalone_witness :
  let paired :=
    exists c, In c (components constraint_result) /\ type c = action
              /\ after_first_space (description c) = Some "system" in
  let standalone :=
    exists c, In c (components constraint_result) /\ type c = entity
              /\ description c = "system" in
  (paired \/ standalone) /\ ~ (paired /\ standalone).
Proof.
  apply (entities_are_paired_or_standalone insertion_order format_2f_exact 0 9
           constraint_text None None constraint_result).
  - vm_compute. reflexivity.
  - vm_compute. left. reflexivity.
Defined.

Lemma explicit_constraints_become_components_witness :
  exists r c,
    decompose insertion_order format_2f_exact 0 9 pipeline_text None
      (Some ["no downtime"]) = Ok r
    /\ In c (components r) /\ type c = constraint
    /\ description c = "respect constraint: " +:+ "no downtime"
    /\ extracted_from (metadata c) = "constraint: " +:+ "no downtime".
Proof.
  apply (explicit_constraints_become_components insertion_order format_2f_exact 0 9
           pipeline_text None ["no downtime"] "no downtime").
  - exact insertion_order_is_iteration_order.
  - lia.
  - left. reflexivity.
Defined.


Lemma extraction_has_set_semantics_witness :
  NoDup (_extract_entities insertion_order constraint_text)
  /\ NoDup (_extract_constraints insertion_order constraint_text None)
  /\ forall e, In e (_extract_entities insertion_order constraint_text) -> lower e = e.
Proof.
  apply (extraction_has_set_semantics insertion_order constraint_text None).
  exact insertion_order_is_iteration_order.
Defined.


Lemma constraints_are_sinks_of_fixed_criticality_witness :
  let k := nth_component (components constraint_result) 2 in
  dependencies k = []
  /\ dependent_count (components constraint_result) k
     = length (List.filter (fun c => negb (is_type (type c) constraint))
                 (components constraint_result))
  /\ criticality k = {| score := 0.95; reason := "Constraint affects all work" |}.
Proof.
  apply (constraints_are_sinks_of_fixed_criticality insertion_order format_2f_exact 0 9
           constraint_text None None constraint_result).
  - vm_compute. reflexivity.
  - vm_compute. right. right. left. reflexivity.
  - vm_compute. reflexivity.
Defined.

Lemma max_depth_is_longest_chain_witness :
  (exists l, chain (components constraint_result) l
             /\ length l = max_depth (result_metadata constraint_result))
  /\ (forall l, chain (components constraint_result) l ->
        length l <= max_depth (result_metadata constraint_result))
  /\ 1 <= max_depth (result_metadata constraint_result).
Proof.
  apply (max_depth_is_longest_chain insertion_order format_2f_exact 0 9
           constraint_text None None constraint_result).
  - lia.
  - vm_compute. reflexivity.
Defined.

Lemma critical_path_lists_dependencies_later_witness :
  dependencies_follow (components (result_of pipeline_text))
    (critical_path (result_of pipeline_text)).
Proof.
  apply (critical_path_lists_dependencies_later insertion_order format_2f_exact 0 9
           pipeline_text None None (result_of pipeline_text)).
  vm_compute. reflexivity.
Defined.

Lemma dependencies_are_exactly_the_inferred_edges_witness :
  let cs := components (result_of pipeline_text) in
  In (id (nth_component cs 3)) (dependencies (nth_component cs 0)) <->
  (type (nth_component cs 0) <> constraint /\ type (nth_component cs 3) = constraint)
  \/ (type (nth_component cs 0) = action
      /\ co_mentioned pipeline_text (nth_component cs 0) (nth_component cs 3)
      /\ (type (nth_component cs 3) = entity
          \/ (type (nth_component cs 3) = action
              /\ _is_sequential (description (nth_component cs 0))
                   (description (nth_component cs 3)) = true))).
Proof.
  apply (dependencies_are_exactly_the_inferred_edges insertion_order format_2f_exact 0 9
           pipeline_text None None (result_of pipeline_text)).
  - vm_compute. reflexivity.
  - vm_compute. left. reflexivity.
  - vm_compute. right. right. right. left. reflexivity.
Defined.


Lemma ungrouped_components_are_related_witness :
  let c := nth_component (components constraint_result) 0 in
  let k := nth_component (components constraint_result) 1 in
  In (id k) (dependencies c) \/ In (id c) (dependencies k).
Proof.
  apply (ungrouped_components_are_related insertion_order format_2f_exact 0 9
           constraint_text None None constraint_result).
  - vm_compute. reflexivity.
  - vm_compute. left. reflexivity.
  - vm_compute. right. left. reflexivity.
  - vm_compute. discriminate.
  - vm_compute. intros [H|[H|[H|[]]]]; discriminate H.
  - vm_compute. intros [H|[H|[H|[]]]]; discriminate H.
Defined.

Lemma parallel_groups_are_seeded_witness :
  2 <= length ["comp_2"; "comp_3"; "comp_4"]
  /\ seeded_group (components constraint_result) ["comp_2"; "comp_3"; "comp_4"].
Proof.
  apply (parallel_groups_are_seeded insertion_order format_2f_exact 0 9
           constraint_text None None constraint_result).
  - vm_compute. reflexivity.
  - vm_compute. left. reflexivity.
Defined.

(** The two components of [constraint_text] left out of its one group, the
    action and the entity, are joined by an edge. *)
Example constraint_text_ungrouped :
  map (fun c => (id c, type c, description c)) (components constraint_result)
  = [("comp_0", action, "build system"); ("comp_1", entity, "build");
     ("comp_2", constraint, "respect constraint: 2 weeks");
     ("comp_3", constraint, "respect constraint: zero budget");
     ("comp_4", constraint, "respect constraint: solo")]
  /\ warnings constraint_result = [].
Proof. split; vm_compute; reflexivity. Qed.
